(** * fix_tags.py: tag normalisation for semicolon-separated Anki CSV files

    A shallow embedding of [neetcode_150_gpt/fix_tags.py] and the properties
    of its three functions [normalize_tag_cell], [process_csv_file] and
    [process_folder].

    Text.  A Python [str] is a sequence of code points.  The embedding covers
    the code points U+0000..U+00FF: a character is an [ascii] (eight bits,
    read as the code point of that number) and a [str] is a [list ascii].
    On that range [isspace] and [lower] below are Python's own tables
    ([str.isspace], which [str.strip] and the pattern [\s] of [re] share, and
    [str.lower]).  The module [Text] has the same function with the alphabet
    left open, and [Unicode] takes it to code points beyond U+00FF.  File
    names and messages, which the program never looks into, are [string]s. *)

From stdpp Require Import base option list gmap strings.
From Stdlib Require Import NArith Ascii.

Abbreviation str := (list ascii) (only parsing).

(** A string literal of the source as a [str]. *)
Notation "'py' s" := (String.list_ascii_of_string s) (at level 9, s at level 0, only parsing).

(** ** Characters *)

Module Char.

Definition code (c : ascii) : N := N_of_ascii c.

Definition between (lo hi : N) (c : ascii) : bool :=
  ((lo <=? code c) && (code c <=? hi))%N.

(** [str.isspace] on one character: TAB..CR, FS..US and SPACE, and in the
    upper half NEL (U+0085) and NO-BREAK SPACE (U+00A0). *)
Definition isspace (c : ascii) : bool :=
  between 9 13 c || between 28 32 c || between 133 133 c || between 160 160 c.

(** [str.isupper] on one character: A..Z and the capital letters
    U+00C0..U+00DE, the multiplication sign U+00D7 apart. *)
Definition isupper (c : ascii) : bool :=
  between 65 90 c || between 192 214 c || between 216 222 c.

(** [str.lower] on one character: every capital letter of the range has its
    small letter 32 places further. *)
Definition lower (c : ascii) : ascii :=
  if isupper c then ascii_of_N (code c + 32) else c.

Definition space : ascii := " "%char.
Definition comma : ascii := ","%char.
Definition underscore : ascii := "_"%char.

End Char.

(** ** String methods *)

(** [s.lstrip()]: drop the leading whitespace.  It is also what a greedy
    [\s*] leaves of the text it is matched against. *)
Fixpoint lstrip (s : str) : str :=
  match s with
  | c :: r => if Char.isspace c then lstrip r else s
  | [] => []
  end.

(** [s.rstrip()]. *)
Definition rstrip (s : str) : str := reverse (lstrip (reverse s)).

(** [s.strip()]. *)
Definition strip (s : str) : str := rstrip (lstrip s).

(** [s.lower()]. *)
Definition str_lower (s : str) : str := Char.lower <$> s.

(** [s.replace(old, new)] for one-character [old] and [new]. *)
Definition str_replace (old new : ascii) (s : str) : str :=
  (fun c => if decide (c = old) then new else c) <$> s.

(** [sep.join(l)]. *)
Fixpoint str_join (sep : str) (l : list str) : str :=
  match l with
  | [] => []
  | [t] => t
  | t :: ts => t ++ sep ++ str_join sep ts
  end.


(** ** Regular expressions

    A pattern is embedded as its anchored matcher: [m s] is [Some rest] when
    the pattern matches a prefix of [s], [rest] being the text after the
    match the backtracking engine settles on, and [None] when it matches no
    prefix.  Both patterns of the program match at least one character. *)

Definition matcher := str → option str.

(** [\s*,\s*]: the greedy [\s*] takes the whole whitespace run; giving some of
    it back cannot help, as the next character would be whitespace and not a
    comma. *)
Definition pat_comma : matcher := fun s =>
  match lstrip s with
  | c :: r => if decide (c = Char.comma) then Some (lstrip r) else None
  | [] => None
  end.

(** [\s+]. *)
Definition pat_spaces : matcher := fun s =>
  match s with
  | c :: r => if Char.isspace c then Some (lstrip r) else None
  | [] => None
  end.

(** The scan of [re.split]: [cur] is the piece read so far (reversed), [s]
    the text left.  At each position the pattern is tried; at the leftmost
    match the piece is closed and the scan goes on after the match.  [fuel]
    bounds the number of positions visited. *)
Fixpoint re_split_scan (m : matcher) (fuel : nat) (cur s : str) : list str :=
  match fuel, s with
  | _, [] => [reverse cur]
  | 0, _ => [reverse cur ++ s]
  | S fuel', c :: r =>
      match m s with
      | Some rest => reverse cur :: re_split_scan m fuel' [] rest
      | None => re_split_scan m fuel' (c :: cur) r
      end
  end.

(** [re.split(pattern, s)]. *)
Definition re_split (m : matcher) (s : str) : list str :=
  re_split_scan m (length s) [] s.

(** The scan of [re.sub]: every leftmost match is replaced by [repl], the
    text between matches is copied. *)
Fixpoint re_sub_scan (m : matcher) (repl : str) (fuel : nat) (s : str) : str :=
  match fuel, s with
  | _, [] => []
  | 0, _ => s
  | S fuel', c :: r =>
      match m s with
      | Some rest => repl ++ re_sub_scan m repl fuel' rest
      | None => c :: re_sub_scan m repl fuel' r
      end
  end.

(** [re.sub(pattern, repl, s)]. *)
Definition re_sub (m : matcher) (repl s : str) : str :=
  re_sub_scan m repl (length s) s.

(** ** normalize_tag_cell *)

Definition nonempty (l : list str) : list str :=
  filter (fun p => p ≠ []) l.

(** Lines 25-32, one turn of the loop: [None] is the [continue]. *)
Definition clean_part (p : str) : option str :=
  let p := re_sub pat_spaces (py " ") (strip p) in
  match p with
  | [] => None
  | _ => Some (str_replace Char.space Char.underscore (str_lower p))
  end.

(** Lines 25-32: the loop appends to [cleaned]. *)
Fixpoint clean_loop (parts : list str) (cleaned : list str) : list str :=
  match parts with
  | [] => cleaned
  | p :: parts' =>
      match clean_part p with
      | None => clean_loop parts' cleaned
      | Some t => clean_loop parts' (cleaned ++ [t])
      end
  end.

(** Lines 35-40: the loop keeps the set [seen] and appends to [deduped]. *)
Fixpoint dedup_loop (cleaned : list str) (seen : gset str) (deduped : list str)
  : list str :=
  match cleaned with
  | [] => deduped
  | t :: cleaned' =>
      if decide (t ∈ seen) then dedup_loop cleaned' seen deduped
      else dedup_loop cleaned' ({[t]} ∪ seen) (deduped ++ [t])
  end.

(** Lines 21-23. *)
Definition split_parts (s : str) : list str :=
  let parts := nonempty (re_split pat_comma s) in
  match parts with
  | [] => nonempty (re_split pat_spaces (strip s))
  | _ => parts
  end.

(** [normalize_tag_cell(cell)]; [None] is Python's [None]. *)
Definition normalize_tag_cell (cell : option str) : str :=
  match cell with
  | None => []
  | Some s =>
      let parts := split_parts s in
      let cleaned := clean_loop parts [] in
      let deduped := dedup_loop cleaned ∅ [] in
      str_join (py " ") deduped
  end.

(** ** normalize_tag_cell over any alphabet

    Lines 16-43 once more, with the characters left open: the character
    type, its whitespace class, [str.lower] and the three characters the
    function names are parameters.  With the tables of [Char] this is the
    function above ([normalize_tag_cell_text] below); with the code points of
    [Unicode] it reads text beyond U+00FF. *)

Module Text.

Section Alphabet.

Context {C : Type} `{Countable C}.

(** [c.isspace()], which [strip] and the pattern [\s] share. *)
Variable isspace : C → bool.

(** [s.lower()]. *)
Variable lower : list C → list C.

(** The characters [","], [" "] and ["_"]. *)
Variable comma space underscore : C.

Fixpoint lstrip (s : list C) : list C :=
  match s with
  | c :: r => if isspace c then lstrip r else s
  | [] => []
  end.

Definition rstrip (s : list C) : list C := reverse (lstrip (reverse s)).

Definition strip (s : list C) : list C := rstrip (lstrip s).

Definition str_replace (old new : C) (s : list C) : list C :=
  (fun c => if decide (c = old) then new else c) <$> s.

Fixpoint str_join (sep : list C) (l : list (list C)) : list C :=
  match l with
  | [] => []
  | [t] => t
  | t :: ts => t ++ sep ++ str_join sep ts
  end.

Definition pat_comma (s : list C) : option (list C) :=
  match lstrip s with
  | c :: r => if decide (c = comma) then Some (lstrip r) else None
  | [] => None
  end.

Definition pat_spaces (s : list C) : option (list C) :=
  match s with
  | c :: r => if isspace c then Some (lstrip r) else None
  | [] => None
  end.

Fixpoint re_split_scan (m : list C → option (list C)) (fuel : nat)
  (cur s : list C) : list (list C) :=
  match fuel, s with
  | _, [] => [reverse cur]
  | 0, _ => [reverse cur ++ s]
  | S fuel', c :: r =>
      match m s with
      | Some rest => reverse cur :: re_split_scan m fuel' [] rest
      | None => re_split_scan m fuel' (c :: cur) r
      end
  end.

Definition re_split (m : list C → option (list C)) (s : list C)
  : list (list C) :=
  re_split_scan m (length s) [] s.

Fixpoint re_sub_scan (m : list C → option (list C)) (repl : list C)
  (fuel : nat) (s : list C) : list C :=
  match fuel, s with
  | _, [] => []
  | 0, _ => s
  | S fuel', c :: r =>
      match m s with
      | Some rest => repl ++ re_sub_scan m repl fuel' rest
      | None => c :: re_sub_scan m repl fuel' r
      end
  end.

Definition re_sub (m : list C → option (list C)) (repl s : list C) : list C :=
  re_sub_scan m repl (length s) s.

Definition nonempty (l : list (list C)) : list (list C) :=
  filter (fun p => p ≠ []) l.

Definition clean_part (p : list C) : option (list C) :=
  let p := re_sub pat_spaces [space] (strip p) in
  match p with
  | [] => None
  | _ => Some (str_replace space underscore (lower p))
  end.

Fixpoint clean_loop (parts : list (list C)) (cleaned : list (list C))
  : list (list C) :=
  match parts with
  | [] => cleaned
  | p :: parts' =>
      match clean_part p with
      | None => clean_loop parts' cleaned
      | Some t => clean_loop parts' (cleaned ++ [t])
      end
  end.

Fixpoint dedup_loop (cleaned : list (list C)) (seen : gset (list C))
  (deduped : list (list C)) : list (list C) :=
  match cleaned with
  | [] => deduped
  | t :: cleaned' =>
      if decide (t ∈ seen) then dedup_loop cleaned' seen deduped
      else dedup_loop cleaned' ({[t]} ∪ seen) (deduped ++ [t])
  end.

Definition split_parts (s : list C) : list (list C) :=
  let parts := nonempty (re_split pat_comma s) in
  match parts with
  | [] => nonempty (re_split pat_spaces (strip s))
  | _ => parts
  end.

Definition normalize_tag_cell (cell : option (list C)) : list C :=
  match cell with
  | None => []
  | Some s =>
      let parts := split_parts s in
      let cleaned := clean_loop parts [] in
      let deduped := dedup_loop cleaned ∅ [] in
      str_join [space] deduped
  end.

End Alphabet.

End Text.

(** ** Text beyond U+00FF

    Code points as numbers.  [isspace] is the whole whitespace class of
    Python.  The case tables are Python's on the code points of [in_table]:
    U+0000..U+00FF, and four code points that show what [str.lower] does
    outside that range: U+0130 (a capital letter whose lowercase form is the
    two code points U+0069 U+0307), U+0307, and the capital letters U+2102
    and U+03D2, which have no lowercase form.  The case tables of the other
    code points are not embedded, and nothing is stated of text that holds
    them. *)

Module Unicode.

Definition between (lo hi c : N) : bool := ((lo <=? c) && (c <=? hi))%N.

Definition in_table (c : N) : bool :=
  between 0 255 c || (c =? 304)%N || (c =? 775)%N || (c =? 8450)%N
  || (c =? 978)%N.

(** [str.isspace] on one code point. *)
Definition isspace (c : N) : bool :=
  between 9 13 c || between 28 32 c || (c =? 133)%N || (c =? 160)%N
  || (c =? 5760)%N || between 8192 8202 c || between 8232 8233 c
  || (c =? 8239)%N || (c =? 8287)%N || (c =? 12288)%N.

(** [str.isupper] on one code point of the table. *)
Definition isupper (c : N) : bool :=
  between 65 90 c || between 192 214 c || between 216 222 c
  || (c =? 304)%N || (c =? 8450)%N || (c =? 978)%N.

(** [str.lower] on one code point of the table. *)
Definition lower_cp (c : N) : list N :=
  if between 65 90 c || between 192 214 c || between 216 222 c
  then [(c + 32)%N]
  else if (c =? 304)%N then [105%N; 775%N]
  else [c].

(** [s.lower()] on text of the table (which holds no capital sigma, the one
    letter whose lowercase form depends on its neighbours). *)
Definition str_lower (s : list N) : list N := s ≫= lower_cp.

Definition comma : N := 44.
Definition space : N := 32.
Definition underscore : N := 95.

(** [normalize_tag_cell(cell)] on code points. *)
Definition normalize_tag_cell (cell : option (list N)) : list N :=
  Text.normalize_tag_cell isspace str_lower comma space underscore cell.

End Unicode.

(** ** Files

    The CSV reader and writer of the standard library and the file system
    are outside the program: a file is seen through the rows the reader
    yields, and through the rows handed to the writer. *)

Abbreviation row := (list str) (only parsing).

(** What a call does: it returns, or it raises an [Exception] whose [str()]
    is [msg]. *)
Inductive result (A : Type) : Type :=
  | Ok (a : A)
  | Raise (msg : string).
Arguments Ok {A} a.
Arguments Raise {A} msg.

(** A [pathlib.Path]: the directory and the final component. *)
Record path : Type := Path { parent : string; name : string }.

(** [name.rfind(".")] over the characters of the name, from position [i]:
    the index of the last dot at or after [i]. *)
Fixpoint rfind_dot (i : nat) (s : str) : option nat :=
  match s with
  | [] => None
  | c :: r =>
      match rfind_dot (S i) r with
      | Some j => Some j
      | None => if decide (c = "."%char) then Some i else None
      end
  end.

(** [path.stem]: the name without its last suffix; a dot that starts or ends
    the name does not open a suffix. *)
Definition stem (p : path) : string :=
  let s := String.list_ascii_of_string (name p) in
  match rfind_dot 0 s with
  | Some i =>
      if decide (0 < i ∧ i < length s - 1)
      then String.string_of_list_ascii (take i s)
      else name p
  | None => name p
  end.

(** [path.with_name(n)]. *)
Definition with_name (p : path) (n : string) : path :=
  {| parent := parent p; name := n |}.

(** Line 50, for a path that has a name, as every path of the glob has.
    (On a path without a name [with_name] raises [ValueError].) *)
Definition out_path_of (p : path) : path :=
  with_name p (stem p +:+ "_fixed.csv").

(** Lines 66-70: the index of the first column that is "tags" once trimmed
    and lowercased; [i] is the index of the head of [header]. *)
Fixpoint find_tags_from (i : nat) (header : row) : option nat :=
  match header with
  | [] => None
  | col :: header' =>
      if decide (str_lower (strip col) = py "tags") then Some i
      else find_tags_from (S i) header'
  end.

Definition find_tags (header : row) : option nat := find_tags_from 0 header.

(** Lines 83-87, one data row.  Under the guard the index is in range; the
    [None] branch stands for the [IndexError] that cannot happen there. *)
Definition fix_row (tags_idx : nat) (r : row) : row :=
  if decide (tags_idx < length r) then
    match r !! tags_idx with
    | Some original => <[tags_idx := normalize_tag_cell (Some original)]> r
    | None => r
    end
  else r.

(** Lines 81-87: the loop appends each row to [fixed_rows]. *)
Fixpoint fix_loop (tags_idx : nat) (data : list row) (fixed_rows : list row)
  : list row :=
  match data with
  | [] => fixed_rows
  | r :: data' => fix_loop tags_idx data' (fixed_rows ++ [fix_row tags_idx r])
  end.

(** The file system and the libraries the program calls on it. *)
Class FileSystem (World : Type) : Type := {
  (** Lines 53-55: open the file, parse it with the semicolon dialect and
      read all its rows; any step may raise. *)
  read_csv : World → path → result (list row);
  (** Open the output for writing and hand the rows to [writerows]; the call
      may raise, and may have changed the file system by then. *)
  write_csv : World → path → list row → World * result unit;
  (** [root.exists() and root.is_dir()]. *)
  is_dir : World → string → bool;
  (** [sorted(root.glob("*.csv"))]. *)
  sorted_glob_csv : World → string → list path;
}.

Section Program.

Context `{FileSystem World}.

(** Writing [rows] to [out] and returning [out]. *)
Definition write_out (w : World) (out : path) (rows : list row)
  : World * result path :=
  match write_csv w out rows with
  | (w', Ok _) => (w', Ok out)
  | (w', Raise msg) => (w', Raise msg)
  end.

(** [process_csv_file(path)].  For a file without rows the output is opened
    and nothing is written, which is the writer given no rows. *)
Definition process_csv_file (w : World) (p : path) : World * result path :=
  let out_path := out_path_of p in
  match read_csv w p with
  | Raise msg => (w, Raise msg)
  | Ok rows =>
      match rows with
      | [] => write_out w out_path []
      | header :: data =>
          match find_tags header with
          | None => write_out w out_path rows
          | Some tags_idx =>
              write_out w out_path (fix_loop tags_idx data [header])
          end
      end
  end.

(** A line of the report. *)
Definition entry : Type := string * string * string.

(** Lines 104-108: what the [try] statement appends for one file. *)
Definition entry_of (p : path) (r : result path) : entry :=
  match r with
  | Ok out_path => (name p, "ok", name out_path)
  | Raise msg => (name p, "error: " +:+ msg, "")
  end.

(** Lines 103-108. *)
Fixpoint report_loop (w : World) (paths : list path) (report : list entry)
  : World * list entry :=
  match paths with
  | [] => (w, report)
  | csv_path :: paths' =>
      let '(w', r) := process_csv_file w csv_path in
      report_loop w' paths' (report ++ [entry_of csv_path r])
  end.

(** How [process_folder] ends: [sys.exit(code)] after an error line, or a
    return after the report was printed. *)
Inductive outcome : Type :=
  | SysExit (code : nat) (line : string)
  | Printed (report : list entry).

(** [process_folder(folder)]. *)
Definition process_folder (w : World) (folder : string) : World * outcome :=
  if is_dir w folder then
    let '(w', report) := report_loop w (sorted_glob_csv w folder) [] in
    (w', Printed report)
  else (w, SysExit 1 ("Error: '" +:+ folder +:+ "' is not a folder")).


End Program.

(** ** Notions the properties are stated with *)

(** A matcher that consumes at least one character. *)
Definition shrinking (m : matcher) : Prop :=
  ∀ s rest, m s = Some rest → length rest < length s.

(** Every maximal run of whitespace of [s] replaced by one [u]; [in_run]
    tells that the character before [s] was whitespace. *)
Fixpoint squeeze (u : ascii) (in_run : bool) (s : str) : str :=
  match s with
  | [] => []
  | c :: r =>
      if Char.isspace c then
        if in_run then squeeze u true r else u :: squeeze u true r
      else c :: squeeze u false r
  end.

(** A tag as [normalize_tag_cell] emits it: not empty, without whitespace
    and without capital letters. *)
Definition canonical (t : str) : Prop :=
  t ≠ [] ∧ ∀ c, c ∈ t → Char.isspace c = false ∧ Char.isupper c = false.

(** What [blank] asks of a cell: it is [None], or a string of whitespace
    only (the empty string included). *)
Definition blank (cell : option str) : Prop :=
  match cell with
  | None => True
  | Some s => Forall (fun c => Char.isspace c = true) s
  end.

(** The whitespace of [s] is made of single spaces, each between two
    characters that are not whitespace. *)
Definition single_spaced (s : str) : Prop :=
  ∀ pre c post, s = pre ++ c :: post → Char.isspace c = true →
    c = Char.space
    ∧ (∃ pre' a, pre = pre' ++ [a] ∧ Char.isspace a = false)
    ∧ (∃ b post', post = b :: post' ∧ Char.isspace b = false).

(** A cell made of commas and whitespace only. *)
Definition commas_and_spaces (s : str) : Prop :=
  ∀ c, c ∈ s → c = Char.comma ∨ Char.isspace c = true.

(** The elements of [l] in the order of their first occurrence, each once. *)
Fixpoint first_occurrences (l : list str) : list str :=
  match l with
  | [] => []
  | t :: l' => t :: filter (fun u => u ≠ t) (first_occurrences l')
  end.

(** A separator the comma split recognises: a comma, with whitespace
    before and after it or without. *)
Definition separator (sep : str) : Prop :=
  ∃ before after,
    sep = before ++ Char.comma :: after
    ∧ Forall (fun c => Char.isspace c = true) before
    ∧ Forall (fun c => Char.isspace c = true) after.

(** ** A small file system, to run the program on

    A directory [deck] with three files: one with a Tags column and a ragged
    row, one without a Tags column, one that cannot be read. *)

Module Deck.

Inductive file : Type :=
  | Csv (rows : list row)
  | Unreadable (msg : string).

Record world : Type := World {
  listing : list string;
  files : gmap string file;
}.

Definition read (w : world) (p : path) : result (list row) :=
  match files w !! name p with
  | Some (Csv rows) => Ok rows
  | Some (Unreadable msg) => Raise msg
  | None => Raise "No such file or directory"
  end.

Definition write (w : world) (p : path) (rows : list row)
  : world * result unit :=
  ({| listing := listing w; files := <[name p := Csv rows]> (files w) |},
   Ok ()).

Definition dir (_ : world) (folder : string) : bool :=
  bool_decide (folder = "deck").

Definition glob (w : world) (folder : string) : list path :=
  Path folder <$> listing w.

#[global] Instance fs : FileSystem world := {|
  read_csv := read;
  write_csv := write;
  is_dir := dir;
  sorted_glob_csv := glob;
|}.

Definition arrays_header : row := [py "Front"; py "Back"; py " Tags "].

Definition arrays_data : list row :=
  [ [py "Two Sum"; py "hash the complements"; py "Array, Hash Map, array"];
    [py "Ragged"; py "no tag cell"];
    [py "3Sum"; py "sort, then two pointers"; py "Two Pointers"; py "Extra, Cell"] ].

Definition arrays : list row := arrays_header :: arrays_data.

Definition plain_header : row := [py "Front"; py "Back"].

Definition plain_data : list row := [ [py "Big, O"; py "Growth Rate"] ].

Definition plain : list row := plain_header :: plain_data.

Definition arrays_csv : path := Path "deck" "arrays.csv".
Definition broken_csv : path := Path "deck" "broken.csv".
Definition plain_csv : path := Path "deck" "plain.csv".

Definition w0 : world :=
  {| listing := ["arrays.csv"; "broken.csv"; "plain.csv"];
     files := {[ "arrays.csv" := Csv arrays;
                 "broken.csv" := Unreadable "'utf-8' codec can't decode byte 0xff";
                 "plain.csv" := Csv plain ]} |}.

(** The same directory with the unreadable file alone. *)
Definition w1 : world :=
  {| listing := ["broken.csv"];
     files := {[ "broken.csv" := Unreadable "'utf-8' codec can't decode byte 0xff" ]} |}.

End Deck.

(** * Properties *)

(** ** Characters *)

Ltac each_char c :=
  destruct c as [[] [] [] [] [] [] [] []]; vm_compute; try reflexivity; try discriminate.

(** The two character classes, as lists of code points. *)
Example isspace_table :
  filter (fun n => Char.isspace (ascii_of_nat n) = true) (seq 0 256)
  = [9; 10; 11; 12; 13; 28; 29; 30; 31; 32; 133; 160].
Proof. vm_compute. reflexivity. Qed.

Example isupper_table :
  filter (fun n => Char.isupper (ascii_of_nat n) = true) (seq 0 256)
  = seq 65 26 ++ seq 192 23 ++ seq 216 7.
Proof. vm_compute. reflexivity. Qed.

Example lower_table :
  (fun n => nat_of_ascii (Char.lower (ascii_of_nat n)))
    <$> (seq 65 26 ++ seq 192 23 ++ seq 216 7)
  = seq 97 26 ++ seq 224 23 ++ seq 248 7.
Proof. vm_compute. reflexivity. Qed.

Lemma lower_not_upper c : Char.isupper c = false → Char.lower c = c.
Proof. unfold Char.lower. by intros ->. Qed.

Lemma isupper_lower c : Char.isupper (Char.lower c) = false.
Proof. each_char c. Qed.

Lemma isspace_lower c : Char.isspace (Char.lower c) = Char.isspace c.
Proof. each_char c. Qed.

Lemma isspace_space : Char.isspace Char.space = true.
Proof. reflexivity. Qed.

Lemma isspace_comma : Char.isspace Char.comma = false.
Proof. reflexivity. Qed.

(** ** Stripping *)

Lemma lstrip_spaces (s : str) :
  Forall (fun c => Char.isspace c = true) s → lstrip s = [].
Proof.
  induction 1 as [|c r Hc _ IH]; simpl; [done|]. by rewrite Hc.
Qed.

Lemma lstrip_suffix (s : str) : lstrip s `suffix_of` s.
Proof.
  induction s as [|c r IH]; simpl; [done|].
  destruct (Char.isspace c); [by apply suffix_cons_r | done].
Qed.

Lemma lstrip_length (s : str) : length (lstrip s) ≤ length s.
Proof. apply suffix_length, lstrip_suffix. Qed.

Lemma lstrip_head (s : str) c r : lstrip s = c :: r → Char.isspace c = false.
Proof.
  induction s as [|d s IH]; simpl; [done|].
  destruct (Char.isspace d) eqn:Hd; [done|]. by intros [= <- _].
Qed.

(** ** The two patterns and the two scans *)

Lemma pat_comma_shrinking : shrinking pat_comma.
Proof.
  intros s rest. unfold pat_comma.
  destruct (lstrip s) as [|c r] eqn:E; [done|].
  case_decide; [|done]. intros [= <-].
  pose proof (lstrip_length s) as H1. pose proof (lstrip_length r) as H2.
  rewrite E in H1. simpl in H1. lia.
Qed.

Lemma pat_spaces_shrinking : shrinking pat_spaces.
Proof.
  intros [|c r] rest; simpl; [done|].
  destruct (Char.isspace c); [|done]. intros [= <-].
  pose proof (lstrip_length r). lia.
Qed.

(** With a shrinking matcher the scans never use up their fuel: any amount
    from the length of the text on gives the same result. *)
Lemma re_split_scan_fuel m f1 f2 cur s :
  shrinking m → length s ≤ f1 → length s ≤ f2 →
  re_split_scan m f1 cur s = re_split_scan m f2 cur s.
Proof.
  intros Hm. revert f2 cur s.
  induction f1 as [|f1 IH]; intros f2 cur [|c r] H1 H2; simpl in *;
    try lia; try by destruct f2.
  destruct f2 as [|f2]; [lia|]. simpl.
  destruct (m (c :: r)) as [rest|] eqn:E.
  - apply Hm in E. simpl in E. f_equal. apply IH; lia.
  - apply IH; lia.
Qed.

Lemma re_sub_scan_fuel m repl f1 f2 s :
  shrinking m → length s ≤ f1 → length s ≤ f2 →
  re_sub_scan m repl f1 s = re_sub_scan m repl f2 s.
Proof.
  intros Hm. revert f2 s.
  induction f1 as [|f1 IH]; intros f2 [|c r] H1 H2; simpl in *;
    try lia; try by destruct f2.
  destruct f2 as [|f2]; [lia|]. simpl.
  destruct (m (c :: r)) as [rest|] eqn:E.
  - apply Hm in E. simpl in E. f_equal. apply IH; lia.
  - f_equal. apply IH; lia.
Qed.

(** A text without comma has no match of [\s*,\s*]: the split returns the
    text whole. *)
Lemma pat_comma_none (s : str) : Char.comma ∉ s → pat_comma s = None.
Proof.
  intros Hs. unfold pat_comma.
  destruct (lstrip s) as [|c r] eqn:E; [done|].
  case_decide as Hc; [|done]. destruct Hs.
  eapply elem_of_suffix; [|apply lstrip_suffix]. rewrite E, Hc. left.
Qed.

Lemma re_split_scan_comma_free fuel (cur s : str) :
  Char.comma ∉ s → re_split_scan pat_comma fuel cur s = [reverse cur ++ s].
Proof.
  revert cur s. induction fuel as [|fuel IH]; intros cur [|c r] Hs; simpl;
    rewrite ?app_nil_r; try done.
  rewrite (pat_comma_none (c :: r)) by done.
  rewrite IH by set_solver. by rewrite reverse_cons, <- app_assoc.
Qed.

Lemma re_split_comma_free (s : str) :
  Char.comma ∉ s → re_split pat_comma s = [s].
Proof. intros Hs. unfold re_split. by rewrite re_split_scan_comma_free. Qed.

(** [re.sub(r"\s+", u, s)] replaces every maximal whitespace run by [u]. *)
Lemma squeeze_in_run u (s : str) : squeeze u true s = squeeze u false (lstrip s).
Proof.
  induction s as [|c r IH]; simpl; [done|].
  destruct (Char.isspace c) eqn:Hc; [done|]. simpl. by rewrite Hc.
Qed.

Lemma re_sub_scan_spaces u fuel (s : str) :
  length s ≤ fuel → re_sub_scan pat_spaces [u] fuel s = squeeze u false s.
Proof.
  revert s. induction fuel as [|fuel IH]; intros [|c r] Hf; simpl in *;
    try done; try lia.
  destruct (Char.isspace c) eqn:Hc.
  - rewrite squeeze_in_run. f_equal. apply IH.
    pose proof (lstrip_length r). lia.
  - f_equal. apply IH. lia.
Qed.

Lemma re_sub_spaces u (s : str) : re_sub pat_spaces [u] s = squeeze u false s.
Proof. by apply re_sub_scan_spaces. Qed.

Lemma elem_of_squeeze u b (s : str) c :
  c ∈ squeeze u b s → c = u ∨ (c ∈ s ∧ Char.isspace c = false).
Proof.
  revert b. induction s as [|d r IH]; intros b; simpl; [by intros ?%elem_of_nil|].
  destruct (Char.isspace d) eqn:Hd; [destruct b|].
  - intros [->|[??]]%IH; [by left|right]. split; [by right|done].
  - intros [->|[->|[??]]%IH]%elem_of_cons; [by left..|right].
    split; [by right|done].
  - intros [->|[->|[??]]%IH]%elem_of_cons; [right|by left|right].
    + split; [left|done].
    + split; [by right|done].
Qed.

Lemma squeeze_nil_inv u (s : str) : squeeze u false s = [] → s = [].
Proof. destruct s as [|c r]; simpl; [done|]. by destruct (Char.isspace c). Qed.

Lemma str_lower_squeeze u b (s : str) :
  str_lower (squeeze u b s) = squeeze (Char.lower u) b (str_lower s).
Proof.
  unfold str_lower. revert b. induction s as [|c r IH]; intros b; simpl; [done|].
  rewrite isspace_lower. destruct (Char.isspace c); [destruct b|]; simpl;
    by rewrite IH.
Qed.

Lemma str_replace_squeeze b (s : str) :
  str_replace Char.space Char.underscore (squeeze Char.space b s)
  = squeeze Char.underscore b s.
Proof.
  unfold str_replace. revert b. induction s as [|c r IH]; intros b; simpl; [done|].
  destruct (Char.isspace c) eqn:Hc; [destruct b|]; simpl; rewrite ?IH; try done.
  case_decide as E; [|done]. by rewrite E in Hc.
Qed.

(** ** What is left after stripping *)

Lemma lstrip_nil (s : str) :
  lstrip s = [] ↔ Forall (fun c => Char.isspace c = true) s.
Proof.
  split; [|apply lstrip_spaces].
  induction s as [|c r IH]; simpl; [done|].
  destruct (Char.isspace c) eqn:Hc; [|done]. intros ?. constructor; auto.
Qed.

Lemma rstrip_nil (s : str) :
  rstrip s = [] ↔ Forall (fun c => Char.isspace c = true) s.
Proof.
  unfold rstrip. rewrite <- (Forall_reverse _ s), <- lstrip_nil.
  split; [|by intros ->].
  intros H. apply (f_equal reverse) in H. by rewrite reverse_involutive in H.
Qed.

Lemma strip_nil (s : str) :
  strip s = [] ↔ Forall (fun c => Char.isspace c = true) s.
Proof.
  unfold strip. rewrite rstrip_nil, <- (lstrip_nil s).
  split; [|intros ->; constructor].
  destruct (lstrip s) as [|c r] eqn:E; [done|].
  intros H%Forall_cons_1. apply lstrip_head in E. destruct H; congruence.
Qed.

(** ** The loops of normalize_tag_cell *)

Lemma clean_part_eq (p : str) :
  clean_part p =
    match strip p with
    | [] => None
    | _ => Some (squeeze Char.underscore false (str_lower (strip p)))
    end.
Proof.
  unfold clean_part. change (py " ") with [Char.space].
  rewrite re_sub_spaces.
  destruct (squeeze Char.space false (strip p)) eqn:E.
  - apply squeeze_nil_inv in E. by rewrite E.
  - rewrite <- E. destruct (strip p); [done|].
    by rewrite str_lower_squeeze, str_replace_squeeze.
Qed.

Lemma clean_loop_omap (parts cleaned : list str) :
  clean_loop parts cleaned = cleaned ++ omap clean_part parts.
Proof.
  revert cleaned. induction parts as [|p parts IH]; intros cleaned; simpl.
  - by rewrite app_nil_r.
  - destruct (clean_part p); rewrite IH; [|done]. by rewrite <- app_assoc.
Qed.

Lemma dedup_loop_app (cleaned : list str) seen deduped :
  dedup_loop cleaned seen deduped = deduped ++ dedup_loop cleaned seen [].
Proof.
  revert seen deduped. induction cleaned as [|t ts IH]; intros seen deduped; simpl.
  - by rewrite app_nil_r.
  - case_decide; [done|].
    rewrite (IH _ (deduped ++ [t])), (IH _ ([] ++ [t])). by rewrite <- app_assoc.
Qed.

Lemma dedup_loop_elem (cleaned : list str) seen t :
  t ∈ dedup_loop cleaned seen [] → t ∈ cleaned ∧ t ∉ seen.
Proof.
  revert seen. induction cleaned as [|u ts IH]; intros seen; simpl.
  - by intros ?%elem_of_nil.
  - case_decide as Hu.
    + intros [??]%IH. split; [by right|done].
    + rewrite dedup_loop_app. simpl.
      intros [Ht|Ht]%elem_of_cons; [rewrite Ht; split; [left|done]|].
      apply IH in Ht as [? Hseen]. split; [by right|].
      intros ?. apply Hseen, elem_of_union. by right.
Qed.

Lemma dedup_loop_NoDup (cleaned : list str) seen :
  NoDup (dedup_loop cleaned seen []).
Proof.
  revert seen. induction cleaned as [|u ts IH]; intros seen; simpl.
  - constructor.
  - case_decide as Hu; [done|]. rewrite dedup_loop_app. simpl.
    constructor; [|done]. intros [_ ?]%dedup_loop_elem. set_solver.
Qed.

Lemma normalize_eq (s : str) :
  normalize_tag_cell (Some s)
  = str_join [Char.space] (dedup_loop (omap clean_part (split_parts s)) ∅ []).
Proof. unfold normalize_tag_cell. by rewrite clean_loop_omap. Qed.

Lemma squeeze_lower_canonical (q : str) :
  q ≠ [] → canonical (squeeze Char.underscore false (str_lower q)).
Proof.
  intros Hq. split.
  - intros H%squeeze_nil_inv. by destruct q.
  - intros d [->|[Hd Hs]]%elem_of_squeeze; [done|]. split; [done|].
    apply list_elem_of_fmap in Hd as (e & -> & _). apply isupper_lower.
Qed.

Lemma clean_part_canonical (p t : str) : clean_part p = Some t → canonical t.
Proof.
  rewrite clean_part_eq. destruct (strip p) as [|c r] eqn:E; [done|].
  intros [= <-]. by apply (squeeze_lower_canonical (c :: r)).
Qed.

Lemma cleaned_canonical (parts : list str) :
  Forall canonical (omap clean_part parts).
Proof.
  apply Forall_forall. intros t (p & _ & Hp)%list_elem_of_omap.
  by eapply clean_part_canonical.
Qed.

Lemma deduped_canonical (cleaned : list str) seen :
  Forall canonical cleaned → Forall canonical (dedup_loop cleaned seen []).
Proof.
  rewrite !Forall_forall. intros H t [Ht _]%dedup_loop_elem. by apply H.
Qed.

(** ** Joining canonical tags with single spaces *)


Lemma join_cons2 sep (t u : str) (ts : list str) :
  str_join sep (t :: u :: ts) = t ++ sep ++ str_join sep (u :: ts).
Proof. done. Qed.

Lemma join_cons2_char c (t u : str) (ts : list str) :
  str_join [c] (t :: u :: ts) = t ++ c :: str_join [c] (u :: ts).
Proof. done. Qed.

Lemma elem_of_join (ts : list str) c :
  c ∈ str_join [Char.space] ts → c = Char.space ∨ ∃ t, t ∈ ts ∧ c ∈ t.
Proof.
  induction ts as [|t [|u ts] IH].
  - by intros ?%elem_of_nil.
  - intros ?. right. exists t. split; [left|done].
  - rewrite join_cons2.
    intros [?|[->%list_elem_of_singleton|[->|(v & ? & ?)]%IH]%elem_of_app]%elem_of_app.
    + right. exists t. split; [left|done].
    + by left.
    + by left.
    + right. exists v. split; [by right|done].
Qed.

Lemma join_head (t : str) (ts : list str) :
  canonical t →
  ∃ b r, str_join [Char.space] (t :: ts) = b :: r ∧ Char.isspace b = false.
Proof.
  intros [Hne Ht]. destruct t as [|b r]; [done|].
  exists b. destruct ts as [|u ts]; [exists r|eexists]; (split; [done|]);
    apply Ht; left.
Qed.

Lemma single_spaced_tag (t : str) : canonical t → single_spaced t.
Proof.
  intros [_ Ht] pre c post -> Hc.
  destruct (Ht c) as [Hs _]; [|congruence]. apply elem_of_app. right. left.
Qed.

Lemma single_spaced_app (t rest : str) b r :
  canonical t → rest = b :: r → Char.isspace b = false → single_spaced rest →
  single_spaced (t ++ Char.space :: rest).
Proof.
  intros [Hne Ht] Hrest Hb Hss pre c post E Hc.
  assert (Hsep : pre = t → c = Char.space
          ∧ (∃ pre' a, pre = pre' ++ [a] ∧ Char.isspace a = false)
          ∧ (∃ b post', post = b :: post' ∧ Char.isspace b = false)).
  { intros ->. apply app_inv_head in E as [= <- <-]. split; [done|].
    split; [|by eauto].
    destruct (exists_last Hne) as (pre' & a & ->). exists pre', a.
    split; [done|]. apply Ht, elem_of_app. right. left. }
  apply app_eq_inv in E as [(k & Et & Ek)|(k & Epre & Ek)].
  - destruct k as [|d k]; [apply Hsep; by rewrite Et, app_nil_r|].
    injection Ek as <- _. destruct (Ht c) as [Hs _]; [|congruence].
    rewrite Et. apply elem_of_app. right. left.
  - destruct k as [|d k]; [apply Hsep; by rewrite Epre, app_nil_r|].
    injection Ek as <- Ek.
    destruct (Hss _ _ _ Ek Hc) as (-> & (pre' & a & -> & Ha) & Hpost).
    split; [done|]. split; [|done].
    exists (t ++ Char.space :: pre'), a. split; [|done].
    by rewrite Epre, <- app_assoc.
Qed.

Lemma single_spaced_join (ts : list str) :
  Forall canonical ts → single_spaced (str_join [Char.space] ts).
Proof.
  induction ts as [|t [|u ts] IH]; intros Hts.
  - intros [|??] ??; done.
  - apply single_spaced_tag. by inversion Hts.
  - rewrite join_cons2. apply Forall_cons_1 in Hts as [Ht Hts].
    destruct (join_head u ts) as (b & r & E & Hb); [by inversion Hts|].
    eapply single_spaced_app; eauto.
Qed.

Lemma single_spaced_strip (s : str) : single_spaced s → strip s = s.
Proof.
  intros Hss. unfold strip.
  assert (lstrip s = s) as ->.
  { destruct s as [|c r]; [done|]. simpl.
    destruct (Char.isspace c) eqn:Hc; [|done].
    destruct (Hss [] c r eq_refl Hc) as (_ & (pre' & a & E & _) & _).
    by destruct pre'. }
  unfold rstrip. destruct (reverse s) as [|c r] eqn:E.
  { apply (f_equal reverse) in E. by rewrite reverse_involutive in E. }
  apply (f_equal reverse) in E.
  rewrite reverse_involutive, reverse_cons in E.
  simpl. destruct (Char.isspace c) eqn:Hc.
  - destruct (Hss _ c [] E Hc) as (_ & _ & (? & ? & ? & _)). done.
  - by rewrite reverse_cons.
Qed.




(** ** normalize_tag_cell: the claims *)

Lemma split_parts_comma_free (s : str) :
  Char.comma ∉ s → s ≠ [] → split_parts s = [s].
Proof.
  intros Hc Hs. unfold split_parts, nonempty.
  rewrite re_split_comma_free by done.
  by rewrite filter_cons_True, filter_nil.
Qed.

Lemma spaces_comma_free (s : str) :
  Forall (fun c => Char.isspace c = true) s → Char.comma ∉ s.
Proof.
  rewrite Forall_forall. intros H Hc%H. by rewrite isspace_comma in Hc.
Qed.

(** C1: on the comma-free cell "Two Pointers Sliding Window" the comma split
    yields the whole cell as its one part, the whitespace split is not
    reached, and the function returns the single tag
    "two_pointers_sliding_window", not the four tags
    "two pointers sliding window". *)
Theorem normalize_two_pointers :
  let cell := py "Two Pointers Sliding Window" in
  re_split pat_comma cell = [cell]
  ∧ split_parts cell = [cell]
  ∧ normalize_tag_cell (Some cell) = py "two_pointers_sliding_window"
  ∧ normalize_tag_cell (Some cell) ≠ py "two pointers sliding window".
Proof. vm_compute. repeat split; done. Qed.

(** C2: normalizing "Array, Hash Map, array" gives "array hash_map", and
    normalizing that again gives "array_hash_map": the function is not
    idempotent there. *)
Theorem normalize_twice_differs :
  let s := py "Array, Hash Map, array" in
  normalize_tag_cell (Some s) = py "array hash_map"
  ∧ normalize_tag_cell (Some (normalize_tag_cell (Some s))) = py "array_hash_map"
  ∧ normalize_tag_cell (Some (normalize_tag_cell (Some s)))
    ≠ normalize_tag_cell (Some s).
Proof. vm_compute. repeat split; done. Qed.

(** C3: normalize("Array, Hash Map, array") is "array hash_map": the comma
    split gives the three parts, each is lowercased with its inner space
    turned into an underscore, the second "array" is dropped, and the two
    tags left are joined by one space. *)
Theorem normalize_array_hash_map :
  let s := py "Array, Hash Map, array" in
  split_parts s = [py "Array"; py "Hash Map"; py "array"]
  ∧ clean_loop (split_parts s) [] = [py "array"; py "hash_map"; py "array"]
  ∧ dedup_loop (clean_loop (split_parts s) []) ∅ [] = [py "array"; py "hash_map"]
  ∧ normalize_tag_cell (Some s) = py "array hash_map".
Proof. vm_compute. repeat split; done. Qed.

(** C4: [normalize_tag_cell] is a total function from cells to strings (no
    call of it ends in an exception), and on the empty string, on every
    string made of whitespace only and on None it returns the empty string. *)
Theorem normalize_blank (cell : option str) :
  blank cell → normalize_tag_cell cell = [].
Proof.
  destruct cell as [s|]; [|done]. intros Hs. simpl in Hs.
  destruct s as [|c r]; [done|].
  rewrite normalize_eq, split_parts_comma_free;
    [|by apply spaces_comma_free|done].
  simpl. rewrite clean_part_eq.
  by apply strip_nil in Hs as ->.
Qed.

Lemma normalize_blank_witness :
  blank (Some [Char.space; ascii_of_nat 9; ascii_of_nat 10; ascii_of_nat 160])
  ∧ normalize_tag_cell
      (Some [Char.space; ascii_of_nat 9; ascii_of_nat 10; ascii_of_nat 160]) = [].
Proof.
  split.
  - repeat constructor.
  - apply (normalize_blank (Some [Char.space; ascii_of_nat 9; ascii_of_nat 10;
                                  ascii_of_nat 160])).
    repeat constructor.
Defined.

(** C9: a cell without comma that has a character other than whitespace is
    the one part of the comma split, so the whitespace split is not taken,
    and the result is the one tag made of the trimmed, lowercased cell with
    each whitespace run inside it replaced by one underscore. *)
Theorem normalize_comma_free (s : str) :
  Char.comma ∉ s →
  (∃ c, c ∈ s ∧ Char.isspace c = false) →
  re_split pat_comma s = [s]
  ∧ split_parts s = [s]
  ∧ normalize_tag_cell (Some s)
    = squeeze Char.underscore false (str_lower (strip s)).
Proof.
  intros Hcomma (c & Hc & Hsp).
  assert (s ≠ []) as Hne by (intros ->; by apply elem_of_nil in Hc).
  split; [by apply re_split_comma_free|].
  split; [by apply split_parts_comma_free|].
  rewrite normalize_eq, split_parts_comma_free by done.
  simpl. rewrite clean_part_eq.
  destruct (strip s) as [|d r] eqn:E.
  { apply strip_nil in E. rewrite Forall_forall in E.
    apply E in Hc. congruence. }
  simpl. by rewrite decide_False by set_solver.
Qed.

Lemma normalize_comma_free_witness :
  normalize_tag_cell (Some (py "  Two   Pointers "))
  = squeeze Char.underscore false (str_lower (strip (py "  Two   Pointers ")))
  ∧ squeeze Char.underscore false (str_lower (strip (py "  Two   Pointers ")))
    = py "two_pointers".
Proof.
  split; [|reflexivity].
  apply (normalize_comma_free (py "  Two   Pointers ")).
  - vm_compute. intros H. repeat (apply elem_of_cons in H as [H|H]; [discriminate H|]).
    by apply elem_of_nil in H.
  - exists "T"%char. split; [|reflexivity]. do 2 right. left.
Defined.



(** ** process_csv_file *)

Lemma fix_loop_fmap i (data fixed_rows : list row) :
  fix_loop i data fixed_rows = fixed_rows ++ (fix_row i <$> data).
Proof.
  revert fixed_rows. induction data as [|r data IH]; intros acc; simpl.
  - by rewrite app_nil_r.
  - by rewrite IH, <- app_assoc.
Qed.

(** The scan of the header stops at the first column that reads "tags". *)
Lemma find_tags_from_None i (header : list str) :
  find_tags_from i header = None
  ↔ ∀ col, col ∈ header → str_lower (strip col) ≠ py "tags".
Proof.
  revert i. induction header as [|col header IH]; intros i; simpl.
  - split; [by intros _ ? ?%elem_of_nil|done].
  - case_decide as E.
    + split; [done|]. intros H. destruct (H col); [left|done].
    + rewrite IH. split.
      * intros H c [->|?]%elem_of_cons; auto.
      * intros H c ?. apply H. by right.
Qed.

Lemma find_tags_from_Some i (header : list str) k :
  find_tags_from i header = Some k →
  ∃ j col, k = i + j ∧ header !! j = Some col
    ∧ str_lower (strip col) = py "tags"
    ∧ ∀ j' col', j' < j → header !! j' = Some col' →
        str_lower (strip col') ≠ py "tags".
Proof.
  revert i. induction header as [|col header IH]; intros i; simpl; [done|].
  case_decide as E.
  - intros [= <-]. exists 0, col. repeat split; [lia|done|lia].
  - intros (j & c & -> & Hj & Hc & Hfirst)%IH. exists (S j), c.
    repeat split; [lia|done..|].
    intros [|j'] col' Hlt; simpl; [by intros [= <-]|].
    apply Hfirst. lia.
Qed.

Lemma fix_row_length i (r : list str) : length (fix_row i r) = length r.
Proof.
  unfold fix_row. case_decide; [|done].
  destruct (r !! i); [|done]. by rewrite length_insert.
Qed.

Lemma fix_row_other i j (r : list str) : j ≠ i → fix_row i r !! j = r !! j.
Proof.
  intros Hj. unfold fix_row. case_decide; [|done].
  destruct (r !! i); [|done]. by rewrite list_lookup_insert_ne.
Qed.

Lemma fix_row_in_range i (r : list str) cell :
  r !! i = Some cell → fix_row i r = <[i := normalize_tag_cell (Some cell)]> r.
Proof.
  intros Hc. unfold fix_row. rewrite Hc.
  apply lookup_lt_Some in Hc. by rewrite decide_True.
Qed.

Lemma fix_row_short i (r : list str) : length r ≤ i → fix_row i r = r.
Proof. intros Hi. unfold fix_row. rewrite decide_False; [done|lia]. Qed.

Section ProgramProperties.

Context `{FileSystem World}.

Lemma process_with_tags w p header data i :
  read_csv w p = Ok (header :: data) →
  find_tags header = Some i →
  process_csv_file w p
  = write_out w (out_path_of p) (header :: (fix_row i <$> data)).
Proof.
  intros Hread Hfind. unfold process_csv_file.
  by rewrite Hread, Hfind, fix_loop_fmap.
Qed.

(** C5: when the header has a Tags column, the rows written are the header
    as it was read, followed by one row for each data row, of the same
    length and with the same cell at every index but that of the Tags
    column. *)
Theorem process_frame w p header data i :
  read_csv w p = Ok (header :: data) →
  find_tags header = Some i →
  ∃ fixed,
    process_csv_file w p = write_out w (out_path_of p) (header :: fixed)
    ∧ length fixed = length data
    ∧ ∀ k r, data !! k = Some r →
        ∃ r', fixed !! k = Some r'
          ∧ length r' = length r
          ∧ ∀ j, j ≠ i → r' !! j = r !! j.
Proof.
  intros Hread Hfind. exists (fix_row i <$> data).
  split; [by apply process_with_tags|].
  split; [by rewrite length_fmap|].
  intros k r Hk. exists (fix_row i r).
  split; [by rewrite list_lookup_fmap, Hk|].
  split; [apply fix_row_length|]. intros j Hj. by apply fix_row_other.
Qed.

(** C6: when the Tags column is at index [i], a data row that has a cell
    at index [i] is written with that cell replaced by its normal form,
    and a data row with at most [i] cells is written as it was read. *)
Theorem process_tag_cell w p header data i :
  read_csv w p = Ok (header :: data) →
  find_tags header = Some i →
  ∃ fixed,
    process_csv_file w p = write_out w (out_path_of p) (header :: fixed)
    ∧ length fixed = length data
    ∧ ∀ k r, data !! k = Some r →
        (i < length r →
           ∃ cell, r !! i = Some cell
             ∧ fixed !! k = Some (<[i := normalize_tag_cell (Some cell)]> r))
        ∧ (length r ≤ i → fixed !! k = Some r).
Proof.
  intros Hread Hfind. exists (fix_row i <$> data).
  split; [by apply process_with_tags|].
  split; [by rewrite length_fmap|].
  intros k r Hk. rewrite list_lookup_fmap, Hk. simpl. split.
  - intros Hi. destruct (lookup_lt_is_Some_2 r i Hi) as [cell Hcell].
    exists cell. split; [done|]. by rewrite (fix_row_in_range _ _ cell).
  - intros Hi. by rewrite fix_row_short.
Qed.

(** C7: when the file has rows and no column of its header reads "tags"
    once trimmed and lowercased, the writer is called on the output path
    with the rows read, and what that call does to the file system and how it
    ends is what processing the file does: it returns the output path when
    the writer returns, and raises what the writer raises. *)
Theorem process_without_tags w p header data :
  read_csv w p = Ok (header :: data) →
  (∀ col, col ∈ header → str_lower (strip col) ≠ py "tags") →
  process_csv_file w p
  = match write_csv w (out_path_of p) (header :: data) with
    | (w', Ok _) => (w', Ok (out_path_of p))
    | (w', Raise msg) => (w', Raise msg)
    end.
Proof.
  intros Hread Hnone. unfold process_csv_file. rewrite Hread.
  unfold find_tags. by apply (find_tags_from_None 0) in Hnone as ->.
Qed.

End ProgramProperties.

(** ** process_folder *)

Section DriverProperties.

Context `{FileSystem World}.







End DriverProperties.

(** ** The program on the small file system *)

Example deck_report :
  (process_folder Deck.w0 "deck").2
  = Printed [ ("arrays.csv", "ok", "arrays_fixed.csv");
              ("broken.csv", "error: 'utf-8' codec can't decode byte 0xff", "");
              ("plain.csv", "ok", "plain_fixed.csv") ].
Proof. vm_compute. reflexivity. Qed.

Example deck_arrays_fixed :
  Deck.files (process_folder Deck.w0 "deck").1 !! "arrays_fixed.csv"
  = Some (Deck.Csv
      [ [py "Front"; py "Back"; py " Tags "];
        [py "Two Sum"; py "hash the complements"; py "array hash_map"];
        [py "Ragged"; py "no tag cell"];
        [py "3Sum"; py "sort, then two pointers"; py "two_pointers"; py "Extra, Cell"] ]).
Proof. vm_compute. reflexivity. Qed.

Example deck_plain_fixed :
  Deck.files (process_folder Deck.w0 "deck").1 !! "plain_fixed.csv"
  = Some (Deck.Csv Deck.plain).
Proof. vm_compute. reflexivity. Qed.

Example deck_broken :
  process_csv_file Deck.w0 Deck.broken_csv
  = (Deck.w0, Raise "'utf-8' codec can't decode byte 0xff").
Proof. reflexivity. Qed.

Example deck_not_a_folder :
  process_folder Deck.w0 "cards"
  = (Deck.w0, SysExit 1 "Error: 'cards' is not a folder").
Proof. reflexivity. Qed.

Lemma process_frame_witness :
  ∃ fixed,
    process_csv_file Deck.w0 Deck.arrays_csv
    = write_out Deck.w0 (out_path_of Deck.arrays_csv) (Deck.arrays_header :: fixed)
    ∧ length fixed = length Deck.arrays_data
    ∧ ∀ k r, Deck.arrays_data !! k = Some r →
        ∃ r', fixed !! k = Some r'
          ∧ length r' = length r
          ∧ ∀ j, j ≠ 2 → r' !! j = r !! j.
Proof.
  apply (process_frame Deck.w0 Deck.arrays_csv Deck.arrays_header
           Deck.arrays_data 2); reflexivity.
Defined.

Lemma process_tag_cell_witness :
  ∃ fixed,
    process_csv_file Deck.w0 Deck.arrays_csv
    = write_out Deck.w0 (out_path_of Deck.arrays_csv) (Deck.arrays_header :: fixed)
    ∧ length fixed = length Deck.arrays_data
    ∧ ∀ k r, Deck.arrays_data !! k = Some r →
        (2 < length r →
           ∃ cell, r !! 2 = Some cell
             ∧ fixed !! k = Some (<[2 := normalize_tag_cell (Some cell)]> r))
        ∧ (length r ≤ 2 → fixed !! k = Some r).
Proof.
  apply (process_tag_cell Deck.w0 Deck.arrays_csv Deck.arrays_header
           Deck.arrays_data 2); reflexivity.
Defined.

Lemma process_without_tags_witness :
  process_csv_file Deck.w0 Deck.plain_csv
  = match write_csv Deck.w0 (out_path_of Deck.plain_csv)
            (Deck.plain_header :: Deck.plain_data) with
    | (w', Ok _) => (w', Ok (out_path_of Deck.plain_csv))
    | (w', Raise msg) => (w', Raise msg)
    end
  ∧ Deck.files (process_csv_file Deck.w0 Deck.plain_csv).1 !! "plain_fixed.csv"
    = Some (Deck.Csv (Deck.plain_header :: Deck.plain_data)).
Proof.
  split; [|vm_compute; reflexivity].
  apply (process_without_tags Deck.w0 Deck.plain_csv Deck.plain_header
           Deck.plain_data); [reflexivity|].
  intros col Hcol.
  repeat (apply elem_of_cons in Hcol as [->|Hcol]; [by vm_compute|]).
  by apply elem_of_nil in Hcol.
Defined.



(** * Further properties *)

(** ** What the two splits keep and drop *)

Lemma lstrip_keeps (s : str) x :
  x ∈ s → Char.isspace x = false → x ∈ lstrip s.
Proof.
  induction s as [|c r IH]; simpl; [done|].
  destruct (Char.isspace c) eqn:Hc; [|done].
  intros [->|?]%elem_of_cons ?; [congruence|auto].
Qed.

Lemma rstrip_keeps (s : str) x :
  x ∈ s → Char.isspace x = false → x ∈ rstrip s.
Proof.
  intros Hx Hs. unfold rstrip. apply elem_of_reverse, lstrip_keeps; [|done].
  by apply elem_of_reverse.
Qed.

Lemma strip_keeps (s : str) x :
  x ∈ s → Char.isspace x = false → x ∈ strip s.
Proof. intros. by apply rstrip_keeps; [apply lstrip_keeps|]. Qed.

Lemma rstrip_suffix_rev (s : str) : rstrip s `prefix_of` s.
Proof.
  unfold rstrip. destruct (lstrip_suffix (reverse s)) as [k Hk].
  exists (reverse k). apply (f_equal reverse) in Hk.
  by rewrite reverse_involutive, reverse_app in Hk.
Qed.

Lemma elem_of_strip (s : str) x : x ∈ strip s → x ∈ s.
Proof.
  unfold strip. intros Hx.
  eapply elem_of_suffix; [|apply lstrip_suffix].
  eapply elem_of_prefix; [|apply rstrip_suffix_rev]. done.
Qed.

Lemma pat_comma_suffix (s rest : str) : pat_comma s = Some rest → rest `suffix_of` s.
Proof.
  unfold pat_comma. destruct (lstrip s) as [|c r] eqn:E; [done|].
  case_decide; [|done]. intros [= <-].
  etrans; [apply lstrip_suffix|]. etrans; [|apply lstrip_suffix].
  rewrite E. by apply suffix_cons_r.
Qed.

Lemma pat_spaces_suffix (s rest : str) : pat_spaces s = Some rest → rest `suffix_of` s.
Proof.
  destruct s as [|c r]; simpl; [done|]. destruct (Char.isspace c); [|done].
  intros [= <-]. apply suffix_cons_r, lstrip_suffix.
Qed.

(** A match of [\s*,\s*] drops commas and whitespace only. *)
Lemma pat_comma_keeps (s rest : str) x :
  pat_comma s = Some rest → x ∈ s →
  x ≠ Char.comma → Char.isspace x = false → x ∈ rest.
Proof.
  unfold pat_comma. destruct (lstrip s) as [|c r] eqn:E; [done|].
  case_decide as Hc; [|done]. intros [= <-] Hx Hne Hs.
  apply lstrip_keeps; [|done].
  pose proof (lstrip_keeps s x Hx Hs) as Hin. rewrite E in Hin.
  apply elem_of_cons in Hin as [->|?]; done.
Qed.

(** A match of [\s+] drops whitespace only. *)
Lemma pat_spaces_keeps (s rest : str) x :
  pat_spaces s = Some rest → x ∈ s → Char.isspace x = false → x ∈ rest.
Proof.
  destruct s as [|c r]; simpl; [done|].
  destruct (Char.isspace c) eqn:Hc; [|done]. intros [= <-] Hx Hs.
  apply lstrip_keeps; [|done]. apply elem_of_cons in Hx as [->|?]; [congruence|done].
Qed.

(** Every character a matcher cannot drop ends up in a piece. *)
Lemma re_split_scan_keeps (m : matcher) (droppable : ascii → Prop) :
  (∀ s rest x, m s = Some rest → x ∈ s → ¬ droppable x → x ∈ rest) →
  ∀ fuel (cur s : str) x,
    x ∈ reverse cur ++ s → ¬ droppable x →
    ∃ piece, piece ∈ re_split_scan m fuel cur s ∧ x ∈ piece.
Proof.
  intros Hm. induction fuel as [|fuel IH]; intros cur [|c r] x Hx Hd; simpl.
  - exists (reverse cur). rewrite app_nil_r in Hx. split; [left|done].
  - eexists. split; [left|done].
  - exists (reverse cur). rewrite app_nil_r in Hx. split; [left|done].
  - destruct (m (c :: r)) as [rest|] eqn:E.
    + apply elem_of_app in Hx as [Hx|Hx].
      * exists (reverse cur). split; [left|done].
      * destruct (IH [] rest x) as (piece & ? & ?); [|done|].
        { simpl. by eapply Hm. }
        exists piece. split; [by right|done].
    + apply IH; [|done]. by rewrite reverse_cons, <- app_assoc.
Qed.

(** Every character of a piece is a character of the text. *)
Lemma re_split_scan_from (m : matcher) :
  (∀ s rest, m s = Some rest → rest `suffix_of` s) →
  ∀ fuel (cur s piece : str) x,
    piece ∈ re_split_scan m fuel cur s → x ∈ piece → x ∈ reverse cur ++ s.
Proof.
  intros Hm. induction fuel as [|fuel IH]; intros cur [|c r] piece x; simpl.
  - rewrite app_nil_r. by intros ->%list_elem_of_singleton.
  - by intros ->%list_elem_of_singleton.
  - rewrite app_nil_r. by intros ->%list_elem_of_singleton.
  - destruct (m (c :: r)) as [rest|] eqn:E.
    + intros [->|Hp]%elem_of_cons Hx; [apply elem_of_app; by left|].
      apply elem_of_app. right. eapply elem_of_suffix; [|by apply Hm].
      by apply (IH [] rest piece x).
    + intros Hp Hx. specialize (IH _ _ _ _ Hp Hx).
      by rewrite reverse_cons, <- app_assoc in IH.
Qed.

(** No piece of the comma split holds a comma. *)
Lemma re_split_scan_comma_pieces fuel (cur s : str) :
  length s ≤ fuel → Char.comma ∉ cur →
  Forall (fun piece => Char.comma ∉ piece) (re_split_scan pat_comma fuel cur s).
Proof.
  revert cur s. induction fuel as [|fuel IH]; intros cur [|c r] Hf Hcur;
    simpl in Hf; try lia; cbn [re_split_scan].
  - apply Forall_singleton. intros H. apply Hcur. by rewrite <- elem_of_reverse.
  - apply Forall_singleton. intros H. apply Hcur. by rewrite <- elem_of_reverse.
  - destruct (pat_comma (c :: r)) as [rest|] eqn:E.
    + constructor; [intros H; apply Hcur; by rewrite <- elem_of_reverse|].
      apply IH; [|by intros ?%elem_of_nil].
      apply pat_comma_shrinking in E. simpl in E. lia.
    + apply IH; [lia|]. intros [<-|?]%elem_of_cons; [|done].
      unfold pat_comma in E. simpl in E. done.
Qed.

Lemma lower_comma c : Char.lower c = Char.comma → c = Char.comma.
Proof. each_char c. Qed.

Lemma lstrip_idemp (s : str) : lstrip (lstrip s) = lstrip s.
Proof.
  destruct (lstrip s) as [|c r] eqn:E; [done|].
  apply lstrip_head in E. simpl. by rewrite E.
Qed.

Lemma commas_and_spaces_suffix (s t : str) :
  t `suffix_of` s → commas_and_spaces s → commas_and_spaces t.
Proof. intros Hst Hs c Hc. apply Hs. by eapply elem_of_suffix. Qed.

(** On a cell of commas and whitespace that starts a match or is empty, the
    comma split yields empty pieces only. *)
Lemma re_split_scan_commas fuel (s : str) :
  length s ≤ fuel → commas_and_spaces s → (lstrip s = [] → s = []) →
  Forall (fun piece => piece = []) (re_split_scan pat_comma fuel [] s).
Proof.
  revert s. induction fuel as [|fuel IH]; intros [|c r] Hf Hs Hhead;
    simpl in Hf; try lia; cbn [re_split_scan]; try by apply Forall_singleton.
  destruct (lstrip (c :: r)) as [|d r'] eqn:E; [by discriminate Hhead|].
  assert (d = Char.comma) as ->.
  { destruct (Hs d) as [|Hd]; [|done|].
    - eapply elem_of_suffix; [|apply lstrip_suffix]. rewrite E. left.
    - apply lstrip_head in E. congruence. }
  assert (pat_comma (c :: r) = Some (lstrip r')) as ->.
  { unfold pat_comma. rewrite E. by rewrite decide_True. }
  constructor; [done|].
  assert (lstrip r' `suffix_of` c :: r) as Hsuf.
  { etrans; [apply lstrip_suffix|]. etrans; [|apply lstrip_suffix].
    rewrite E. by apply suffix_cons_r. }
  apply IH.
  - pose proof (lstrip_length r'). pose proof (lstrip_length (c :: r)) as H2.
    rewrite E in H2. simpl in H2. lia.
  - by eapply commas_and_spaces_suffix.
  - by rewrite lstrip_idemp.
Qed.

Lemma nonempty_nil (l : list str) :
  Forall (fun piece => piece = []) l → nonempty l = [].
Proof.
  unfold nonempty. induction 1 as [|p l -> _ IH]; [done|].
  by rewrite filter_cons_False by (by intros ?).
Qed.

Lemma elem_of_nonempty (l : list str) p : p ∈ nonempty l ↔ p ∈ l ∧ p ≠ [].
Proof. unfold nonempty. rewrite list_elem_of_filter. tauto. Qed.

Lemma split_parts_fallback (s : str) :
  nonempty (re_split pat_comma s) = [] →
  split_parts s = nonempty (re_split pat_spaces (strip s)).
Proof. unfold split_parts. by intros ->. Qed.

Lemma split_parts_primary (s : str) :
  nonempty (re_split pat_comma s) ≠ [] →
  split_parts s = nonempty (re_split pat_comma s).
Proof. unfold split_parts. by destruct (nonempty (re_split pat_comma s)). Qed.

(** A character that is neither comma nor whitespace sits in a part of the
    comma split. *)
Lemma comma_split_keeps (s : str) x :
  x ∈ s → x ≠ Char.comma → Char.isspace x = false →
  ∃ p, p ∈ nonempty (re_split pat_comma s) ∧ x ∈ p.
Proof.
  intros Hx Hc Hs.
  destruct (re_split_scan_keeps pat_comma
              (fun c => c = Char.comma ∨ Char.isspace c = true)) with
    (fuel := length s) (cur := @nil ascii) (s := s) (x := x)
    as (p & Hp & Hxp); [| done | | ].
  - intros t rest y Hm Hy Hd. apply (pat_comma_keeps t rest y Hm Hy).
    + intros ->. apply Hd. by left.
    + destruct (Char.isspace y) eqn:E; [|done]. destruct Hd. by right.
  - intros [?|?]; congruence.
  - exists p. split; [|done]. apply elem_of_nonempty. split; [done|].
    intros ->. by apply elem_of_nil in Hxp.
Qed.

Lemma fallback_commas (s : str) :
  commas_and_spaces s → s = [] ∨ Char.comma ∈ s →
  nonempty (re_split pat_comma s) = [].
Proof.
  intros Hs Hc. apply nonempty_nil, re_split_scan_commas; [done..|].
  intros Hl. destruct Hc as [?|Hc]; [done|].
  apply lstrip_nil in Hl. rewrite Forall_forall in Hl.
  apply Hl in Hc. by rewrite isspace_comma in Hc.
Qed.

Lemma commas_and_spaces_dec (s : str) :
  commas_and_spaces s
  ∨ ∃ x, x ∈ s ∧ x ≠ Char.comma ∧ Char.isspace x = false.
Proof.
  induction s as [|c r [IH|(x & ? & ? & ?)]].
  - left. by intros ? ?%elem_of_nil.
  - destruct (decide (c = Char.comma)) as [->|Hc].
    { left. intros d [->|?]%elem_of_cons; [by left|by apply IH]. }
    destruct (Char.isspace c) eqn:Hs.
    { left. intros d [->|?]%elem_of_cons; [by right|by apply IH]. }
    right. exists c. split; [left|done].
  - right. exists x. split; [by right|done].
Qed.

Lemma fallback_inv (s : str) :
  nonempty (re_split pat_comma s) = [] →
  commas_and_spaces s ∧ (s = [] ∨ Char.comma ∈ s).
Proof.
  intros Hnil. split.
  - destruct (commas_and_spaces_dec s) as [?|(x & Hx & Hc & Hs)]; [done|].
    destruct (comma_split_keeps s x Hx Hc Hs) as (p & Hp & _).
    rewrite Hnil in Hp. by apply elem_of_nil in Hp.
  - destruct (decide (Char.comma ∈ s)) as [?|Hc]; [by right|left].
    rewrite re_split_comma_free in Hnil by done.
    destruct s; [done|]. unfold nonempty in Hnil.
    by rewrite filter_cons_True in Hnil.
Qed.

(** X1: the whitespace split of line 23 is reached exactly for the empty
    cell and for the cells made of commas and whitespace that hold a
    comma. *)
Theorem fallback_iff (s : str) :
  nonempty (re_split pat_comma s) = []
  ↔ commas_and_spaces s ∧ (s = [] ∨ Char.comma ∈ s).
Proof. split; [apply fallback_inv|intros [??]; by apply fallback_commas]. Qed.

(** A cell with a character that is not whitespace has a part with such a
    character, whichever split is taken. *)
Lemma split_parts_solid (s : str) x :
  x ∈ s → Char.isspace x = false →
  ∃ p y, p ∈ split_parts s ∧ y ∈ p ∧ Char.isspace y = false.
Proof.
  intros Hx Hs.
  destruct (commas_and_spaces_dec s) as [Hcs|(g & Hg & Hgc & Hgs)].
  - assert (x = Char.comma) as -> by (destruct (Hcs x Hx); congruence).
    rewrite split_parts_fallback by (apply fallback_commas; auto).
    destruct (re_split_scan_keeps pat_spaces (fun c => Char.isspace c = true))
      with (fuel := length (strip s)) (cur := @nil ascii) (s := strip s)
           (x := Char.comma) as (p & Hp & Hxp); [| |done|].
    + intros t rest y Hm Hy Hd. apply (pat_spaces_keeps t rest y Hm Hy).
      by destruct (Char.isspace y).
    + simpl. by apply strip_keeps.
    + exists p, Char.comma. split; [|done]. apply elem_of_nonempty.
      split; [done|]. intros ->. by apply elem_of_nil in Hxp.
  - destruct (comma_split_keeps s g Hg Hgc Hgs) as (p & Hp & Hgp).
    rewrite split_parts_primary.
    + by exists p, g.
    + intros E. rewrite E in Hp. by apply elem_of_nil in Hp.
Qed.

Lemma dedup_loop_cons (t : str) (l : list str) :
  dedup_loop (t :: l) ∅ [] = t :: dedup_loop l {[t]} [].
Proof.
  simpl. rewrite decide_False by apply not_elem_of_empty.
  rewrite dedup_loop_app. simpl. by rewrite (right_id_L ∅ (∪)).
Qed.

Lemma normalize_spaces (s : str) :
  Forall (fun c => Char.isspace c = true) s → normalize_tag_cell (Some s) = [].
Proof.
  intros Hs. destruct s as [|c r]; [done|].
  rewrite normalize_eq, split_parts_comma_free;
    [|by apply spaces_comma_free|done].
  simpl. rewrite clean_part_eq. by apply strip_nil in Hs as ->.
Qed.

(** X2: the result is the empty string only for a cell without any character
    other than whitespace. *)
Theorem normalize_empty_iff (s : str) :
  normalize_tag_cell (Some s) = []
  ↔ Forall (fun c => Char.isspace c = true) s.
Proof.
  split; [|apply normalize_spaces].
  intros Hnil. apply Forall_forall. intros x Hx.
  destruct (Char.isspace x) eqn:Hs; [done|exfalso].
  destruct (split_parts_solid s x Hx Hs) as (p & y & Hp & Hy & Hys).
  rewrite normalize_eq in Hnil.
  destruct (clean_part p) as [t|] eqn:Hclean.
  2:{ rewrite clean_part_eq in Hclean.
      destruct (strip p) eqn:E; [|done].
      apply strip_nil in E. rewrite Forall_forall in E.
      apply E in Hy. congruence. }
  assert (t ∈ omap clean_part (split_parts s)) as Ht
    by (apply list_elem_of_omap; eauto).
  pose proof (cleaned_canonical (split_parts s)) as Hcan.
  destruct (omap clean_part (split_parts s)) as [|u cleaned];
    [by apply elem_of_nil in Ht|].
  rewrite dedup_loop_cons in Hnil.
  destruct (join_head u (dedup_loop cleaned {[u]} [])) as (b & r & E & _);
    [by inversion Hcan|].
  by rewrite E in Hnil.
Qed.

(** X3: when the cell has a character that is neither a comma nor
    whitespace, the result holds no comma. *)
Theorem normalize_no_comma (s : str) :
  (∃ x, x ∈ s ∧ x ≠ Char.comma ∧ Char.isspace x = false) →
  Char.comma ∉ normalize_tag_cell (Some s).
Proof.
  intros (x & Hx & Hc & Hs).
  destruct (comma_split_keeps s x Hx Hc Hs) as (p0 & Hp0 & _).
  rewrite normalize_eq, split_parts_primary
    by (intros E; rewrite E in Hp0; by apply elem_of_nil in Hp0).
  intros [[=]|(t & Ht & Hct)]%elem_of_join.
  apply dedup_loop_elem in Ht as [Ht _].
  apply list_elem_of_omap in Ht as (p & [Hp _]%elem_of_nonempty & Hclean).
  rewrite clean_part_eq in Hclean. destruct (strip p) eqn:E; [done|].
  rewrite <- E in Hclean. injection Hclean as <-.
  apply elem_of_squeeze in Hct as [[=]|[Hd _]].
  apply list_elem_of_fmap in Hd as (d & Hd & Hdp).
  symmetry in Hd. apply lower_comma in Hd as ->.
  apply elem_of_strip in Hdp.
  pose proof (re_split_scan_comma_pieces (length s) [] s) as Hall.
  rewrite Forall_forall in Hall. eapply Hall; [lia|by intros ?%elem_of_nil|done..].
Qed.

Lemma normalize_no_comma_witness :
  (Char.comma ∉ normalize_tag_cell (Some (py " , Graph ,, BFS,")))
  ∧ normalize_tag_cell (Some (py " , Graph ,, BFS,")) = py "graph bfs".
Proof.
  split; [|reflexivity].
  apply (normalize_no_comma (py " , Graph ,, BFS,")).
  exists "G"%char. split; [|done]. do 3 right. left.
Defined.

(** ** The loop that removes duplicates *)

Lemma dedup_loop_filter (l : list str) (seen : gset str) :
  dedup_loop l seen [] = filter (fun t => t ∉ seen) (first_occurrences l).
Proof.
  revert seen. induction l as [|t l IH]; intros seen; simpl; [done|].
  case_decide as Ht.
  - rewrite filter_cons_False by (by intros ?).
    rewrite list_filter_filter_l; [apply IH|]. intros u Hu ->. done.
  - rewrite filter_cons_True by done.
    rewrite dedup_loop_app. simpl. f_equal.
    rewrite IH, list_filter_filter. apply list_filter_iff.
    intros u. rewrite elem_of_union, elem_of_singleton. tauto.
Qed.

Lemma dedup_loop_complete (l : list str) (seen : gset str) t :
  t ∈ l → t ∉ seen → t ∈ dedup_loop l seen [].
Proof.
  revert seen. induction l as [|u l IH]; intros seen; [by intros ?%elem_of_nil|].
  simpl. intros Ht Hseen. case_decide as Hu.
  - apply IH; [|done]. apply elem_of_cons in Ht as [->|?]; done.
  - rewrite dedup_loop_app. simpl.
    destruct (decide (t = u)) as [->|Hne]; [left|right].
    apply IH.
    + apply elem_of_cons in Ht as [?|?]; done.
    + rewrite elem_of_union, elem_of_singleton. tauto.
Qed.

(** X4: the loop of lines 35-40 returns the tags in the order of their
    first occurrence, each once: no tag is lost, none is repeated. *)
Theorem dedup_first_occurrences (cleaned : list str) :
  dedup_loop cleaned ∅ [] = first_occurrences cleaned
  ∧ NoDup (dedup_loop cleaned ∅ [])
  ∧ ∀ t, t ∈ dedup_loop cleaned ∅ [] ↔ t ∈ cleaned.
Proof.
  split; [|split].
  - rewrite dedup_loop_filter. induction (first_occurrences cleaned) as [|t l IH];
      [done|].
    by rewrite filter_cons_True, IH by apply not_elem_of_empty.
  - apply dedup_loop_NoDup.
  - intros t. split; [by intros [??]%dedup_loop_elem|].
    intros Ht. apply dedup_loop_complete; [done|apply not_elem_of_empty].
Qed.

(** ** Splitting a joined list of tags *)

Lemma re_split_scan_nil (m : matcher) fuel (cur : str) :
  re_split_scan m fuel cur [] = [reverse cur].
Proof. by destruct fuel. Qed.

Lemma lstrip_app_spaces (ws s : str) :
  Forall (fun c => Char.isspace c = true) ws → lstrip (ws ++ s) = lstrip s.
Proof. induction 1 as [|c ws Hc _ IH]; simpl; [done|]. by rewrite Hc. Qed.

Section ScanJoin.

(** A matcher that finds no match at a character of a tag ([solid]) and
    matches [sep] in front of a tag or of the end of the text. *)
Variable m : matcher.
Variable solid : ascii → Prop.
Variable sep : str.
Hypothesis m_solid : ∀ c (x : str), solid c → m (c :: x) = None.
Hypothesis m_sep : ∀ rest : str,
  (rest = [] ∨ ∃ b r, rest = b :: r ∧ solid b) → m (sep ++ rest) = Some rest.
Hypothesis sep_nonempty : sep ≠ [].

Lemma scan_tag (t rest cur : str) fuel :
  (∀ c, c ∈ t → solid c) → length (t ++ rest) ≤ fuel →
  re_split_scan m fuel cur (t ++ rest)
  = re_split_scan m (fuel - length t) (reverse t ++ cur) rest.
Proof.
  revert fuel cur. induction t as [|c t IH]; intros fuel cur Ht Hf.
  - simpl. by rewrite Nat.sub_0_r.
  - destruct fuel as [|fuel]; [simpl in Hf; lia|].
    simpl. rewrite m_solid by (apply Ht; left).
    rewrite IH; [|intros ??; apply Ht; by right|simpl in Hf; lia].
    by rewrite reverse_cons, <- app_assoc.
Qed.

Lemma scan_sep (rest cur : str) fuel :
  (rest = [] ∨ ∃ b r, rest = b :: r ∧ solid b) →
  re_split_scan m (S fuel) cur (sep ++ rest)
  = reverse cur :: re_split_scan m fuel [] rest.
Proof.
  intros Hrest. pose proof (m_sep rest Hrest) as Hm.
  destruct (sep ++ rest) as [|c r] eqn:E.
  { apply app_eq_nil in E as [? _]. done. }
  simpl. by rewrite Hm.
Qed.

Lemma scan_join (ts : list str) fuel :
  Forall (fun t => t ≠ [] ∧ ∀ c, c ∈ t → solid c) ts → ts ≠ [] →
  length (str_join sep ts) ≤ fuel →
  re_split_scan m fuel [] (str_join sep ts) = ts.
Proof.
  revert fuel. induction ts as [|t [|u ts] IH]; intros fuel Hts Hne Hf; [done| |].
  - apply Forall_singleton in Hts as [_ Ht]. simpl in *.
    rewrite <- (app_nil_r t) at 1. rewrite scan_tag by (by rewrite ?app_nil_r).
    by rewrite re_split_scan_nil, app_nil_r, reverse_involutive.
  - apply Forall_cons_1 in Hts as [[_ Ht] Hts].
    rewrite join_cons2 in *. rewrite scan_tag by done.
    rewrite !length_app in Hf.
    assert (0 < length sep) by (destruct sep; [done|simpl; lia]).
    destruct (fuel - length t) as [|fuel'] eqn:Ef; [lia|].
    rewrite scan_sep.
    + rewrite app_nil_r, reverse_involutive. f_equal. apply IH; [done..|lia].
    + right. pose proof Hts as [[Hu Hus] _]%Forall_cons_1.
      destruct u as [|b r]; [done|]. exists b.
      destruct ts as [|v ts']; eexists; (split; [reflexivity|]); apply Hus; left.
Qed.

End ScanJoin.

Lemma lstrip_solid (s : str) :
  (s = [] ∨ ∃ b r, s = b :: r ∧ Char.isspace b = false) → lstrip s = s.
Proof. intros [->|(b & r & -> & Hb)]; simpl; [done|]. by rewrite Hb. Qed.

Lemma pat_comma_separator (sep rest : str) :
  separator sep →
  (rest = [] ∨ ∃ b r, rest = b :: r
                      ∧ (Char.isspace b = false ∧ b ≠ Char.comma)) →
  pat_comma (sep ++ rest) = Some rest.
Proof.
  intros (before & after & -> & Hb & Ha) Hrest. unfold pat_comma.
  rewrite <- app_assoc, lstrip_app_spaces by done. simpl.
  rewrite lstrip_app_spaces by done.
  f_equal. apply lstrip_solid. destruct Hrest as [|(b & r & ? & ? & _)]; eauto.
Qed.

Lemma pat_comma_solid c (x : str) :
  Char.isspace c = false ∧ c ≠ Char.comma → pat_comma (c :: x) = None.
Proof. intros [Hs Hc]. unfold pat_comma. simpl. rewrite Hs. by rewrite decide_False. Qed.

Lemma squeeze_solid u (t : str) :
  (∀ c, c ∈ t → Char.isspace c = false) → squeeze u false t = t.
Proof.
  induction t as [|c t IH]; intros Ht; simpl; [done|].
  rewrite (Ht c) by left. f_equal. apply IH. intros ??. apply Ht. by right.
Qed.

Lemma str_lower_canonical (t : str) : canonical t → str_lower t = t.
Proof.
  intros [_ Ht]. unfold str_lower. rewrite <- (list_fmap_id t) at 2.
  apply Forall_fmap_ext_1, Forall_forall. intros c Hc.
  by apply lower_not_upper, Ht.
Qed.

Lemma clean_part_canonical_id (t : str) : canonical t → clean_part t = Some t.
Proof.
  intros Ht. rewrite clean_part_eq.
  rewrite single_spaced_strip by by apply single_spaced_tag.
  destruct Ht as [Hne Ht]. destruct t as [|c r] eqn:E; [done|].
  rewrite <- E in *. rewrite str_lower_canonical by (split; [by subst|done]).
  f_equal. apply squeeze_solid. intros d Hd. by apply Ht.
Qed.

Lemma omap_clean_canonical (ts : list str) :
  Forall canonical ts → omap clean_part ts = ts.
Proof.
  induction 1 as [|t ts Ht _ IH]; simpl; [done|].
  rewrite clean_part_canonical_id by done. f_equal. apply IH.
Qed.

Lemma nonempty_canonical (ts : list str) :
  Forall canonical ts → nonempty ts = ts.
Proof.
  unfold nonempty. induction 1 as [|t ts [Ht _] _ IH]; [done|].
  by rewrite filter_cons_True, IH.
Qed.

Lemma dedup_loop_NoDup_id (l : list str) :
  NoDup l → dedup_loop l ∅ [] = l.
Proof.
  intros Hl. rewrite dedup_loop_filter.
  assert (first_occurrences l = l) as ->.
  { induction Hl as [|t l Ht _ IH]; simpl; [done|]. rewrite IH. f_equal.
    clear IH. induction l as [|u l IH]; [done|].
    rewrite filter_cons_True by (intros ->; apply Ht; left).
    f_equal. apply IH. intros ?. apply Ht. by right. }
  clear Hl. induction l as [|t l IH]; [done|].
  by rewrite filter_cons_True, IH by apply not_elem_of_empty.
Qed.

(** X5: a list of distinct tags that are already in normal form and hold no
    comma, written with commas between them (each with or without whitespace
    around it), is returned as the same tags with single spaces between
    them. *)
Theorem normalize_canonical_list (ts : list str) (sep : str) :
  separator sep →
  Forall canonical ts →
  Forall (fun t => Char.comma ∉ t) ts →
  NoDup ts →
  normalize_tag_cell (Some (str_join sep ts)) = str_join [Char.space] ts.
Proof.
  intros Hsep Hcan Hcomma Hnd.
  destruct (decide (ts = [])) as [->|Hne]; [done|].
  assert (re_split pat_comma (str_join sep ts) = ts) as Hsplit.
  { apply (scan_join pat_comma
             (fun c => Char.isspace c = false ∧ c ≠ Char.comma) sep).
    - intros. by apply pat_comma_solid.
    - intros. by apply pat_comma_separator.
    - destruct Hsep as (before & after & -> & _). by destruct before.
    - rewrite Forall_forall in Hcan, Hcomma. apply Forall_forall.
      intros t Ht. destruct (Hcan t Ht) as [? Hc]. split; [done|].
      intros c Hct. split; [by apply Hc|]. intros ->. by apply (Hcomma t Ht).
    - done.
    - done. }
  rewrite normalize_eq. unfold split_parts.
  rewrite Hsplit, nonempty_canonical by done.
  destruct ts as [|t ts'] eqn:E; [done|]. rewrite <- E in *.
  by rewrite omap_clean_canonical, dedup_loop_NoDup_id.
Qed.

(** Going through the elements of a list given in full. *)
Ltac each_elem H :=
  repeat (apply elem_of_cons in H as [H|H];
          [first [discriminate H | subst; by vm_compute]|]);
  by apply elem_of_nil in H.

Lemma normalize_canonical_list_witness :
  normalize_tag_cell
    (Some (str_join (py " ,  ") [py "array"; py "hash_map"; py "two_pointers"]))
  = str_join [Char.space] [py "array"; py "hash_map"; py "two_pointers"].
Proof.
  apply (normalize_canonical_list
           [py "array"; py "hash_map"; py "two_pointers"] (py " ,  ")).
  - exists [Char.space], [Char.space; Char.space]. repeat split; repeat constructor.
  - apply Forall_forall. intros t Ht.
    repeat (apply elem_of_cons in Ht as [->|Ht];
            [split; [done|intros c Hc; each_elem Hc]|]).
    by apply elem_of_nil in Ht.
  - apply Forall_forall. intros t Ht.
    repeat (apply elem_of_cons in Ht as [->|Ht]; [intros Hc; each_elem Hc|]).
    by apply elem_of_nil in Ht.
  - apply (bool_decide_unpack _). by vm_compute.
Defined.

(** ** The shape of the tags *)

(** No piece of the whitespace split holds whitespace. *)
Lemma re_split_scan_space_pieces fuel (cur s : str) :
  length s ≤ fuel → (∀ c, c ∈ cur → Char.isspace c = false) →
  Forall (fun piece : str => ∀ c, c ∈ piece → Char.isspace c = false)
    (re_split_scan pat_spaces fuel cur s).
Proof.
  revert cur s. induction fuel as [|fuel IH]; intros cur [|c r] Hf Hcur;
    simpl in Hf; try lia; cbn [re_split_scan].
  - apply Forall_singleton. intros c Hc. apply Hcur. by rewrite <- elem_of_reverse.
  - apply Forall_singleton. intros c Hc. apply Hcur. by rewrite <- elem_of_reverse.
  - destruct (pat_spaces (c :: r)) as [rest|] eqn:E.
    + constructor; [intros d Hd; apply Hcur; by rewrite <- elem_of_reverse|].
      apply IH; [|by intros ? ?%elem_of_nil].
      apply pat_spaces_shrinking in E. simpl in E. lia.
    + apply IH; [lia|]. intros d [->|?]%elem_of_cons; [|by apply Hcur].
      simpl in E. by destruct (Char.isspace c).
Qed.

(** The characters of a part are characters of the cell. *)
Lemma split_parts_from (s p : str) x : p ∈ split_parts s → x ∈ p → x ∈ s.
Proof.
  unfold split_parts.
  destruct (nonempty (re_split pat_comma s)) as [|q parts] eqn:E.
  - intros [Hp _]%elem_of_nonempty Hx. apply elem_of_strip.
    by apply (re_split_scan_from pat_spaces pat_spaces_suffix _ [] _ p x Hp).
  - rewrite <- E. intros [Hp _]%elem_of_nonempty Hx.
    by apply (re_split_scan_from pat_comma pat_comma_suffix _ [] _ p x Hp).
Qed.

(** The tag made of a part of the comma split holds no comma. *)
Lemma primary_tag_comma_free (s p t : str) :
  p ∈ re_split pat_comma s → clean_part p = Some t → Char.comma ∉ t.
Proof.
  intros Hp Hclean Hct.
  rewrite clean_part_eq in Hclean. destruct (strip p) eqn:E; [done|].
  rewrite <- E in Hclean. injection Hclean as <-.
  apply elem_of_squeeze in Hct as [[=]|[Hd _]].
  apply list_elem_of_fmap in Hd as (d & Hd & Hdp).
  symmetry in Hd. apply lower_comma in Hd as ->.
  apply elem_of_strip in Hdp.
  pose proof (re_split_scan_comma_pieces (length s) [] s) as Hall.
  rewrite Forall_forall in Hall.
  eapply Hall; [lia|by intros ?%elem_of_nil|done..].
Qed.

(** The tag made of a part of the whitespace split is that part
    lowercased. *)
Lemma fallback_tag (s p t : str) :
  p ∈ re_split pat_spaces s → clean_part p = Some t → t = str_lower p.
Proof.
  intros Hp Hclean.
  pose proof (re_split_scan_space_pieces (length s) [] s) as Hall.
  rewrite Forall_forall in Hall.
  assert (∀ c, c ∈ p → Char.isspace c = false) as Hsolid
    by (eapply Hall; [lia|by intros ? ?%elem_of_nil|done]).
  rewrite clean_part_eq in Hclean.
  assert (strip p = p) as Hstrip.
  { apply single_spaced_strip. intros pre c post -> Hc.
    rewrite Hsolid in Hc; [done|]. apply elem_of_app. right. left. }
  rewrite Hstrip in Hclean. destruct p as [|c r] eqn:E; [done|].
  rewrite <- E in *. injection Hclean as <-.
  apply squeeze_solid. intros d (e & -> & He)%list_elem_of_fmap.
  rewrite isspace_lower. by apply Hsolid.
Qed.

Lemma lower_comma_eq : Char.lower Char.comma = Char.comma.
Proof. reflexivity. Qed.

(** The tags of one cell all hold no comma, or all are made of commas. *)
Lemma tags_shape (s : str) :
  Forall (fun t => Char.comma ∉ t) (omap clean_part (split_parts s))
  ∨ Forall (fun t : str => ∀ c, c ∈ t → c = Char.comma)
      (omap clean_part (split_parts s)).
Proof.
  destruct (nonempty (re_split pat_comma s)) as [|q parts] eqn:E.
  - right. apply Forall_forall. intros t (p & Hp & Hclean)%list_elem_of_omap.
    pose proof (fallback_inv s E) as [Hcs _].
    rewrite split_parts_fallback in Hp by done.
    pose proof Hp as [Hp' _]%elem_of_nonempty.
    rewrite (fallback_tag _ _ _ Hp' Hclean).
    intros c (d & -> & Hd)%list_elem_of_fmap.
    assert (d ∈ s) as Hds.
    { apply elem_of_strip.
      by apply (re_split_scan_from pat_spaces pat_spaces_suffix _ [] _ p d Hp'). }
    pose proof (re_split_scan_space_pieces (length (strip s)) [] (strip s)) as Hall.
    rewrite Forall_forall in Hall.
    assert (Char.isspace d = false) as Hsolid
      by (eapply Hall; [lia|by intros ? ?%elem_of_nil|done..]).
    destruct (Hcs d Hds) as [->|?]; [done|congruence].
  - left. apply Forall_forall. intros t (p & Hp & Hclean)%list_elem_of_omap.
    rewrite split_parts_primary in Hp by (by rewrite E).
    apply elem_of_nonempty in Hp as [Hp _].
    by eapply primary_tag_comma_free.
Qed.

Lemma normalize_tags (s : str) :
  ∃ tags,
    normalize_tag_cell (Some s) = str_join [Char.space] tags
    ∧ Forall canonical tags
    ∧ NoDup tags
    ∧ (Forall (fun t => Char.comma ∉ t) tags
       ∨ Forall (fun t : str => ∀ c, c ∈ t → c = Char.comma) tags).
Proof.
  exists (dedup_loop (omap clean_part (split_parts s)) ∅ []).
  split; [apply normalize_eq|].
  split; [apply deduped_canonical, cleaned_canonical|].
  split; [apply dedup_loop_NoDup|].
  destruct (tags_shape s) as [H|H]; [left|right];
    rewrite Forall_forall in H; apply Forall_forall;
    intros t [Ht _]%dedup_loop_elem; by apply H.
Qed.

(** A cell without comma and with text is one part, and one tag. *)
Lemma normalize_one_part (s : str) :
  Char.comma ∉ s → strip s ≠ [] →
  normalize_tag_cell (Some s)
  = squeeze Char.underscore false (str_lower (strip s)).
Proof.
  intros Hcomma Hstrip.
  assert (s ≠ []) as Hne by (by intros ->).
  rewrite normalize_eq, split_parts_comma_free by done.
  simpl. rewrite clean_part_eq.
  destruct (strip s) as [|d r] eqn:E; [done|].
  simpl. by rewrite decide_False by apply not_elem_of_empty.
Qed.

Lemma normalize_comma_free_tag (t : str) :
  canonical t → Char.comma ∉ t → normalize_tag_cell (Some t) = t.
Proof.
  intros Ht Hcomma.
  assert (strip t = t) as Hstrip
    by by apply single_spaced_strip, single_spaced_tag.
  rewrite normalize_one_part, Hstrip; [|done|rewrite Hstrip; by destruct Ht].
  rewrite str_lower_canonical by done.
  apply squeeze_solid. intros c Hc. by apply Ht.
Qed.

Lemma pat_spaces_space (rest : str) :
  (rest = [] ∨ ∃ b r, rest = b :: r ∧ Char.isspace b = false) →
  pat_spaces ([Char.space] ++ rest) = Some rest.
Proof. intros Hrest. simpl. f_equal. by apply lstrip_solid. Qed.

Lemma pat_spaces_solid c (x : str) :
  Char.isspace c = false → pat_spaces (c :: x) = None.
Proof. intros Hc. simpl. by rewrite Hc. Qed.

(** Tags made of commas, written with single spaces between them, are read
    back by the whitespace split. *)
Lemma normalize_comma_tags (ts : list str) :
  ts ≠ [] → Forall canonical ts →
  Forall (fun t : str => ∀ c, c ∈ t → c = Char.comma) ts →
  NoDup ts →
  normalize_tag_cell (Some (str_join [Char.space] ts))
  = str_join [Char.space] ts.
Proof.
  intros Hne Hcan Hcommas Hnd.
  set (s := str_join [Char.space] ts).
  assert (commas_and_spaces s) as Hcs.
  { intros c [->|(t & Ht & Hc)]%elem_of_join; [by right|left].
    rewrite Forall_forall in Hcommas. by apply (Hcommas t). }
  assert (Char.comma ∈ s) as Hcomma.
  { destruct ts as [|t ts']; [done|].
    apply Forall_cons_1 in Hcan as [[Ht _] _].
    apply Forall_cons_1 in Hcommas as [Hc _].
    destruct t as [|c r]; [done|]. rewrite <- (Hc c) by left.
    subst s. destruct ts'; [left|]. rewrite join_cons2_char. left. }
  assert (strip s = s) as Hstrip
    by by apply single_spaced_strip, single_spaced_join.
  assert (re_split pat_spaces s = ts) as Hsplit.
  { apply (scan_join pat_spaces (fun c => Char.isspace c = false) [Char.space]).
    - intros. by apply pat_spaces_solid.
    - intros. by apply pat_spaces_space.
    - done.
    - eapply Forall_impl; [exact Hcan|]. intros t [? Ht]. split; [done|].
      intros c Hc. by apply Ht.
    - done.
    - done. }
  rewrite normalize_eq, split_parts_fallback by (apply fallback_commas; auto).
  rewrite Hstrip, Hsplit, nonempty_canonical by done.
  by rewrite omap_clean_canonical, dedup_loop_NoDup_id.
Qed.

Lemma join_two_space (t u : str) (ts : list str) :
  Char.space ∈ str_join [Char.space] (t :: u :: ts).
Proof. rewrite join_cons2_char. apply elem_of_app. right. left. Qed.

(** X6: when the result holds no space, so is one tag or empty, normalizing
    it again changes nothing. *)
Theorem normalize_single_tag_fixed (s : str) :
  Char.space ∉ normalize_tag_cell (Some s) →
  normalize_tag_cell (Some (normalize_tag_cell (Some s)))
  = normalize_tag_cell (Some s).
Proof.
  destruct (normalize_tags s) as (tags & -> & Hcan & Hnd & Hshape).
  intros Hspace. destruct tags as [|t [|u tags]].
  - done.
  - destruct Hshape as [Hfree|Hcommas].
    + apply normalize_comma_free_tag; by inversion Hcan + inversion Hfree.
    + by apply (normalize_comma_tags [t]).
  - destruct Hspace. apply join_two_space.
Qed.

Lemma normalize_single_tag_fixed_witness :
  normalize_tag_cell (Some (normalize_tag_cell (Some (py " Hash  Map , hash map"))))
  = normalize_tag_cell (Some (py " Hash  Map , hash map")).
Proof.
  apply (normalize_single_tag_fixed (py " Hash  Map , hash map")).
  vm_compute. intros H. each_elem H.
Defined.

(** X7: normalizing twice reaches a fixed point: a third pass returns what
    the second returned. *)
Theorem normalize_thrice (s : str) :
  let once := normalize_tag_cell (Some s) in
  let twice := normalize_tag_cell (Some once) in
  normalize_tag_cell (Some twice) = twice.
Proof.
  intros once twice. subst twice once.
  destruct (normalize_tags s) as (tags & -> & Hcan & Hnd & Hshape).
  destruct (decide (tags = [])) as [->|Hne]; [done|].
  destruct Hshape as [Hfree|Hcommas].
  2:{ by rewrite !normalize_comma_tags. }
  set (once := str_join [Char.space] tags).
  assert (strip once = once) as Hstrip
    by by apply single_spaced_strip, single_spaced_join.
  assert (once ≠ []) as Honce.
  { subst once. destruct tags as [|t tags']; [done|].
    destruct (join_head t tags') as (b & r & -> & _); [by inversion Hcan|done]. }
  assert (Char.comma ∉ once) as Hcomma.
  { intros [[=]|(t & Ht & Hc)]%elem_of_join.
    rewrite Forall_forall in Hfree. by apply (Hfree t). }
  rewrite (normalize_one_part once), Hstrip by (by rewrite ?Hstrip).
  apply normalize_comma_free_tag; [by apply squeeze_lower_canonical|].
  intros [[=]|[(d & Hd & Hin)%list_elem_of_fmap _]]%elem_of_squeeze.
  symmetry in Hd. apply lower_comma in Hd as ->. done.
Qed.

(** X8: the function invents no text: every character of the result is a
    separating space, an underscore, or a character of the lowercased
    cell. *)
Theorem normalize_from_cell (s : str) c :
  c ∈ normalize_tag_cell (Some s) →
  c = Char.space ∨ c = Char.underscore ∨ c ∈ str_lower s.
Proof.
  rewrite normalize_eq. intros [->|(t & Ht & Hc)]%elem_of_join; [by left|right].
  apply dedup_loop_elem in Ht as [Ht _].
  apply list_elem_of_omap in Ht as (p & Hp & Hclean).
  rewrite clean_part_eq in Hclean. destruct (strip p) eqn:E; [done|].
  rewrite <- E in Hclean. injection Hclean as <-.
  apply elem_of_squeeze in Hc as [->|[Hc _]]; [by left|right].
  apply list_elem_of_fmap in Hc as (d & -> & Hd).
  apply list_elem_of_fmap_2.
  eapply split_parts_from; [done|]. by apply elem_of_strip.
Qed.

Lemma normalize_from_cell_witness :
  "h"%char = Char.space ∨ "h"%char = Char.underscore
  ∨ "h"%char ∈ str_lower (py "Hash Map").
Proof.
  apply (normalize_from_cell (py "Hash Map") "h"%char).
  vm_compute. left.
Defined.

(** ** Letter case *)

Lemma lower_idemp c : Char.lower (Char.lower c) = Char.lower c.
Proof. apply lower_not_upper, isupper_lower. Qed.

Lemma lower_comma_iff c : Char.lower c = Char.comma ↔ c = Char.comma.
Proof. split; [apply lower_comma|by intros ->]. Qed.

Lemma lstrip_lower (s : str) : lstrip (str_lower s) = str_lower (lstrip s).
Proof.
  unfold str_lower. induction s as [|c r IH]; simpl; [done|].
  rewrite isspace_lower. by destruct (Char.isspace c).
Qed.

Lemma strip_lower (s : str) : strip (str_lower s) = str_lower (strip s).
Proof.
  unfold strip, rstrip. rewrite lstrip_lower. unfold str_lower.
  rewrite <- fmap_reverse. fold (str_lower (reverse (lstrip s))).
  rewrite lstrip_lower. unfold str_lower. by rewrite fmap_reverse.
Qed.

Lemma pat_comma_lower (s : str) :
  pat_comma (str_lower s) = str_lower <$> pat_comma s.
Proof.
  unfold pat_comma. rewrite lstrip_lower.
  destruct (lstrip s) as [|c r]; simpl; [done|].
  destruct (decide (c = Char.comma)) as [->|Hc].
  - rewrite decide_True by done. simpl. by rewrite lstrip_lower.
  - rewrite decide_False; [done|]. by rewrite lower_comma_iff.
Qed.

Lemma pat_spaces_lower (s : str) :
  pat_spaces (str_lower s) = str_lower <$> pat_spaces s.
Proof.
  destruct s as [|c r]; simpl; [done|]. rewrite isspace_lower.
  destruct (Char.isspace c); simpl; [|done].
  fold (str_lower r). by rewrite lstrip_lower.
Qed.

Lemma re_split_scan_lower (m : matcher) :
  (∀ s, m (str_lower s) = str_lower <$> m s) →
  ∀ fuel (cur s : str),
    re_split_scan m fuel (str_lower cur) (str_lower s)
    = str_lower <$> re_split_scan m fuel cur s.
Proof.
  intros Hm.
  assert (∀ cur : str, reverse (str_lower cur) = str_lower (reverse cur))
    as Hrev by (intros; unfold str_lower; by rewrite fmap_reverse).
  induction fuel as [|fuel IH]; intros cur [|c r].
  - simpl. by rewrite Hrev.
  - simpl. rewrite Hrev. unfold str_lower. by rewrite fmap_app.
  - simpl. by rewrite Hrev.
  - change (str_lower (c :: r)) with (Char.lower c :: str_lower r).
    cbn [re_split_scan].
    change (Char.lower c :: str_lower r) with (str_lower (c :: r)).
    rewrite Hm. destruct (m (c :: r)) as [rest|]; simpl.
    + rewrite Hrev. f_equal. apply (IH []).
    + apply (IH (c :: cur)).
Qed.

Lemma nonempty_lower (l : list str) :
  nonempty (str_lower <$> l) = str_lower <$> nonempty l.
Proof.
  unfold nonempty. induction l as [|p l IH]; [done|].
  rewrite fmap_cons. destruct p as [|c r].
  - by rewrite !filter_cons_False by (by intros ?).
  - rewrite !filter_cons_True by done. by rewrite fmap_cons, IH.
Qed.

Lemma re_split_lower (m : matcher) (s : str) :
  (∀ s, m (str_lower s) = str_lower <$> m s) →
  re_split m (str_lower s) = str_lower <$> re_split m s.
Proof.
  intros Hm. unfold re_split.
  replace (length (str_lower s)) with (length s)
    by (unfold str_lower; by rewrite length_fmap).
  apply (re_split_scan_lower m Hm _ [] s).
Qed.

Lemma split_parts_lower (s : str) :
  split_parts (str_lower s) = str_lower <$> split_parts s.
Proof.
  unfold split_parts.
  rewrite strip_lower, !re_split_lower, !nonempty_lower
    by (apply pat_comma_lower || apply pat_spaces_lower).
  by destruct (nonempty (re_split pat_comma s)).
Qed.

Lemma clean_part_lower (p : str) : clean_part (str_lower p) = clean_part p.
Proof.
  rewrite !clean_part_eq, strip_lower.
  assert (str_lower (str_lower (strip p)) = str_lower (strip p)) as ->.
  { unfold str_lower. rewrite <- list_fmap_compose.
    apply list_fmap_ext. intros ???. apply lower_idemp. }
  by destruct (strip p).
Qed.

Lemma omap_clean_lower (l : list str) :
  omap clean_part (str_lower <$> l) = omap clean_part l.
Proof.
  induction l as [|p l IH]; [done|].
  rewrite fmap_cons. simpl. rewrite clean_part_lower.
  destruct (clean_part p); [f_equal|]; apply IH.
Qed.

(** X9: letter case plays no part: a cell and its lowercase form have the
    same result. *)
Theorem normalize_case_insensitive (s : str) :
  normalize_tag_cell (Some (str_lower s)) = normalize_tag_cell (Some s).
Proof. by rewrite !normalize_eq, split_parts_lower, omap_clean_lower. Qed.

(** ** The header scan *)

Lemma find_tags_from_first i0 (header : list str) i col :
  header !! i = Some col → str_lower (strip col) = py "tags" →
  (∀ j col', j < i → header !! j = Some col' →
     str_lower (strip col') ≠ py "tags") →
  find_tags_from i0 header = Some (i0 + i).
Proof.
  revert i0 i. induction header as [|c header IH]; intros i0 i; [done|].
  destruct i as [|i]; simpl.
  - intros [= ->] Hcol _. rewrite decide_True by done. f_equal. lia.
  - intros Hi Hcol Hfirst.
    rewrite decide_False by (apply (Hfirst 0); [lia|done]).
    rewrite (IH (S i0) i); [f_equal; lia|done..|].
    intros j col' Hj. apply (Hfirst (S j)). lia.
Qed.

(** X10: the Tags column is the first column whose name, trimmed and
    lowercased, is "tags": the scan of lines 66-70 returns index [i] exactly
    when column [i] has such a name and no column before it has, and it
    returns nothing exactly when no column has such a name. *)
Theorem find_tags_first (header : list str) :
  (∀ i, find_tags header = Some i
        ↔ (∃ col, header !! i = Some col ∧ str_lower (strip col) = py "tags")
          ∧ ∀ j col', j < i → header !! j = Some col' →
              str_lower (strip col') ≠ py "tags")
  ∧ (find_tags header = None
     ↔ ∀ col, col ∈ header → str_lower (strip col) ≠ py "tags").
Proof.
  split; [|apply find_tags_from_None].
  intros i. unfold find_tags. split.
  - intros (j & col & -> & Hj & Hcol & Hfirst)%find_tags_from_Some. eauto.
  - intros [(col & Hi & Hcol) Hfirst].
    by rewrite (find_tags_from_first 0 header i col).
Qed.

(** ** The rows written *)

Section ProcessProperties.

Context `{FileSystem World}.

(** X11: whatever the header, the rows handed to the writer have the shape
    of the rows read: as many rows, and in each row as many cells. *)
Theorem process_shape w p rows :
  read_csv w p = Ok rows →
  ∃ rows',
    process_csv_file w p = write_out w (out_path_of p) rows'
    ∧ length rows' = length rows
    ∧ ∀ k r, rows !! k = Some r →
        ∃ r', rows' !! k = Some r' ∧ length r' = length r.
Proof.
  intros Hread. unfold process_csv_file. rewrite Hread.
  destruct rows as [|header data]; [by exists []|].
  destruct (find_tags header) as [i|]; [|exists (header :: data); eauto].
  exists (header :: (fix_row i <$> data)). rewrite fix_loop_fmap.
  split; [done|]. split; [simpl; by rewrite length_fmap|].
  intros [|k] r; simpl; [eauto|].
  intros Hk. exists (fix_row i r). rewrite list_lookup_fmap, Hk.
  split; [done|apply fix_row_length].
Qed.

End ProcessProperties.

Lemma process_shape_witness :
  ∃ rows',
    process_csv_file Deck.w0 Deck.arrays_csv
    = write_out Deck.w0 (out_path_of Deck.arrays_csv) rows'
    ∧ length rows' = length Deck.arrays
    ∧ ∀ k r, Deck.arrays !! k = Some r →
        ∃ r', rows' !! k = Some r' ∧ length r' = length r.
Proof.
  apply (process_shape Deck.w0 Deck.arrays_csv Deck.arrays). reflexivity.
Defined.

(** ** The output path *)

Lemma list_ascii_of_string_app (a b : string) :
  String.list_ascii_of_string (a +:+ b)
  = String.list_ascii_of_string a ++ String.list_ascii_of_string b.
Proof. induction a as [|c a IH]; simpl; [done|]. by rewrite IH. Qed.

Lemma rfind_dot_none i (s : str) : "."%char ∉ s → rfind_dot i s = None.
Proof.
  revert i. induction s as [|c r IH]; intros i Hs; simpl; [done|].
  rewrite IH by (intros ?; apply Hs; by right).
  rewrite decide_False; [done|]. intros ->. apply Hs. left.
Qed.

(** The last dot is the one found. *)
Lemma rfind_dot_last i (s t : str) :
  "."%char ∉ t → rfind_dot i (s ++ "."%char :: t) = Some (i + length s).
Proof.
  revert i. induction s as [|c s IH]; intros i Ht; simpl.
  - rewrite rfind_dot_none by done. simpl. f_equal. lia.
  - rewrite IH by done. f_equal. lia.
Qed.


(** X13: a file named [base.ext], with a base and an extension that are not
    empty and no dot in the extension, has its output named
    [base_fixed.csv], in the same directory. *)
Theorem out_path_name (dir base ext : string) :
  base ≠ "" → ext ≠ "" →
  "."%char ∉ String.list_ascii_of_string ext →
  out_path_of (Path dir (base +:+ "." +:+ ext))
  = Path dir (base +:+ "_fixed.csv").
Proof.
  intros Hbase Hext Hdot. unfold out_path_of, with_name, stem. simpl.
  rewrite !list_ascii_of_string_app. simpl.
  rewrite rfind_dot_last by done. simpl.
  set (lb := String.list_ascii_of_string base).
  set (le := String.list_ascii_of_string ext).
  assert (0 < length lb) by (subst lb; destruct base; [done|simpl; lia]).
  assert (0 < length le) by (subst le; destruct ext; [done|simpl; lia]).
  rewrite decide_True by (rewrite length_app; simpl; lia).
  rewrite take_app_length. subst lb.
  by rewrite String.string_of_list_ascii_of_string.
Qed.

Lemma out_path_name_witness :
  out_path_of (Path "deck" ("two.pointers" +:+ "." +:+ "csv"))
  = Path "deck" ("two.pointers" +:+ "_fixed.csv").
Proof.
  apply (out_path_name "deck" "two.pointers" "csv"); [done..|].
  intros H. each_elem H.
Defined.



(** ** A folder of unreadable files *)

Section UnreadableFolder.

Context `{FileSystem World}.

Lemma report_loop_unreadable (w : World) (paths : list path) report :
  (∀ p, p ∈ paths → ∃ msg, read_csv w p = Raise msg) →
  ∃ lines,
    report_loop w paths report = (w, report ++ lines)
    ∧ Forall2 (fun p e => ∃ msg, read_csv w p = Raise msg
                                 ∧ e = (name p, "error: " +:+ msg, ""))
        paths lines.
Proof.
  revert report. induction paths as [|p paths IH]; intros report Hall.
  - exists []. split; [by rewrite app_nil_r|constructor].
  - destruct (Hall p) as [msg Hmsg]; [left|].
    destruct (IH (report ++ [(name p, "error: " +:+ msg, "")])) as (lines & Hrun & Hlines).
    { intros q Hq. apply Hall. by right. }
    exists ((name p, "error: " +:+ msg, "") :: lines). split.
    + cbn [report_loop]. unfold process_csv_file. rewrite Hmsg.
      rewrite <- app_assoc in Hrun. exact Hrun.
    + constructor; [eauto|done].
Qed.

(** X15: in a folder where no file can be read, nothing is written: the
    file system is left as it was, and the report has an error line for
    each file, in order, with the message of its reader. *)
Theorem unreadable_folder (w : World) folder :
  is_dir w folder = true →
  (∀ p, p ∈ sorted_glob_csv w folder → ∃ msg, read_csv w p = Raise msg) →
  ∃ report,
    process_folder w folder = (w, Printed report)
    ∧ Forall2 (fun p e => ∃ msg, read_csv w p = Raise msg
                                 ∧ e = (name p, "error: " +:+ msg, ""))
        (sorted_glob_csv w folder) report.
Proof.
  intros Hdir Hall.
  destruct (report_loop_unreadable w (sorted_glob_csv w folder) [] Hall)
    as (lines & Hrun & Hlines).
  exists lines. split; [|done].
  unfold process_folder. by rewrite Hdir, Hrun.
Qed.

End UnreadableFolder.

Lemma unreadable_folder_witness :
  ∃ report,
    process_folder Deck.w1 "deck" = (Deck.w1, Printed report)
    ∧ Forall2 (fun p e => ∃ msg, read_csv Deck.w1 p = Raise msg
                                 ∧ e = (name p, "error: " +:+ msg, ""))
        (sorted_glob_csv Deck.w1 "deck") report.
Proof.
  apply (unreadable_folder Deck.w1 "deck"); [reflexivity|].
  intros p Hp. vm_compute in Hp. apply list_elem_of_singleton in Hp as ->.
  by eexists.
Defined.


(** * The two alphabets *)

(** The function over any alphabet, taken with the tables of [Char], is the
    function of the first part. *)
Lemma normalize_tag_cell_text (cell : option str) :
  Text.normalize_tag_cell Char.isspace str_lower
    Char.comma Char.space Char.underscore cell
  = normalize_tag_cell cell.
Proof. reflexivity. Qed.

(** On U+0000..U+00FF the tables of [Unicode] are those of [Char]. *)
Example unicode_tables_latin1 :
  forallb (fun n : nat =>
    let c := ascii_of_nat n in
    bool_decide (Unicode.isspace (N.of_nat n) = Char.isspace c)
    && bool_decide (Unicode.isupper (N.of_nat n) = Char.isupper c)
    && bool_decide (Unicode.lower_cp (N.of_nat n) = [Char.code (Char.lower c)]))
    (seq 0 256) = true.
Proof. vm_compute. reflexivity. Qed.

Example unicode_dotted_capital_i :
  Unicode.normalize_tag_cell (Some [304%N]) = [105%N; 775%N].
Proof. vm_compute. reflexivity. Qed.
